(** * pprofsvr: the handler cache and the request router

    A shallow embedding of [getHandler], [cleanupProfiles] and the
    catch-all GET route of pprofsvr's package [main], with the properties
    of the cache (single construction, invalidation by modification time,
    retry after a failed build, eviction by age) and of the routing
    (marker split, sub-route lookup, redirect of plain files).

    The text followed is the revision whose [HTTPServer] callback wraps
    the handlers with the navigation bar and whose route stats the file
    with [os.Stat]. The earlier revision stores the driver's handlers as
    they are and stats through [gin.Dir]; [getHandler], [cleanupProfiles]
    and the branches of the route are the same in both. *)

From Equations Require Import Equations.
From stdpp Require Import gmap strings list.
From Stdlib Require Import ZArith Lia.

Open Scope string_scope.
Open Scope Z_scope.

#[local] Arguments String.append !_ _ / : simpl nomatch.

(** ** Go's [strings] package, as far as the router uses it

    A Go string is a sequence of bytes, as is a Rocq [string]. *)

Module strings.

(** [strings.HasPrefix(s, prefix)]. *)
Fixpoint HasPrefix (s prefix : string) {struct prefix} : bool :=
  match prefix, s with
  | EmptyString, _ => true
  | String _ _, EmptyString => false
  | String a p, String b s' => if Ascii.eqb a b then HasPrefix s' p else false
  end.

(** [strings.Index(s, substr)]: the index of the first instance of
    [substr] in [s], [None] for Go's [-1]. *)
Fixpoint Index (s substr : string) : option nat :=
  if HasPrefix s substr then Some 0%nat
  else match s with
       | EmptyString => None
       | String _ s' => S <$> Index s' substr
       end.

(** The slices [s[:i]] and [s[i:]]. *)
Fixpoint slice_to (i : nat) (s : string) : string :=
  match i, s with
  | S i', String c s' => String c (slice_to i' s')
  | _, _ => EmptyString
  end.

Fixpoint slice_from (i : nat) (s : string) : string :=
  match i, s with
  | S i', String _ s' => slice_from i' s'
  | _, _ => s
  end.

(** [strings.Cut(s, sep)]:
    [if i := Index(s, sep); i >= 0 { return s[:i], s[i+len(sep):], true }
     return s, empty, false]. *)
Definition Cut (s sep : string) : string * string * bool :=
  match Index s sep with
  | Some i => (slice_to i s, slice_from (i + String.length sep) s, true)
  | None => (s, EmptyString, false)
  end.

(** [sep] occurs in [s] at byte offset [i]. *)
Definition occurs_at (sep : string) (i : nat) (s : string) : Prop :=
  ∃ b a, s = b ++ sep ++ a ∧ String.length b = i.

(** [strings.HasSuffix(s, suffix)]:
    [len(s) >= len(suffix) && s[len(s)-len(suffix):] == suffix]. *)
Definition HasSuffix (s suffix : string) : bool :=
  (String.length suffix <=? String.length s)%nat &&
  String.eqb (slice_from (String.length s - String.length suffix) s) suffix.

(** [strings.TrimSuffix(s, suffix)]. *)
Definition TrimSuffix (s suffix : string) : string :=
  if HasSuffix s suffix
  then slice_to (String.length s - String.length suffix) s
  else s.

(** [strings.LastIndex(s, substr)]: the index of the last instance of
    [substr] in [s], [None] for Go's [-1]. *)
Fixpoint LastIndex (s substr : string) : option nat :=
  match s with
  | EmptyString => if HasPrefix s substr then Some 0%nat else None
  | String _ s' =>
      match LastIndex s' substr with
      | Some i => Some (S i)
      | None => if HasPrefix s substr then Some 0%nat else None
      end
  end.

End strings.

(** ** Go's [path/filepath] on Unix

    [filepath.Join] belongs to Go's library, not to the program: the
    development is parametric in it, and this model of it serves the
    closed examples. *)

Module filepath.

Definition slash : Ascii.ascii := Ascii.ascii_of_nat 47.

(** The elements of a path between its separators. *)
Fixpoint elements (s : string) : list string :=
  match s with
  | EmptyString => [EmptyString]
  | String c s' =>
      if Ascii.eqb c slash then EmptyString :: elements s'
      else match elements s' with
           | x :: r => String c x :: r
           | [] => [String c EmptyString]
           end
  end.

(** [Clean]'s loop, with the output held as a stack of elements. *)
Fixpoint clean_go (rooted : bool) (out : list string) (elems : list string)
    : list string :=
  match elems with
  | [] => out
  | e :: rest =>
      if decide (e = EmptyString ∨ e = ".") then clean_go rooted out rest
      else if decide (e = "..") then
        match out with
        | top :: below =>
            if decide (top = "..") then clean_go rooted (".." :: out) rest
            else clean_go rooted below rest
        | [] => clean_go rooted (if rooted then [] else [".."]) rest
        end
      else clean_go rooted (e :: out) rest
  end.

Fixpoint join_slash (elems : list string) : string :=
  match elems with
  | [] => EmptyString
  | [e] => e
  | e :: rest => e ++ "/" ++ join_slash rest
  end.

Definition Clean (path : string) : string :=
  let rooted := strings.HasPrefix path "/" in
  let out := join_slash (rev (clean_go rooted [] (elements path))) in
  if rooted then "/" ++ out
  else if decide (out = EmptyString) then "." else out.

(** [filepath.Join(a, b)]: empty elements are ignored, the rest is joined
    with a separator and cleaned. *)
Definition Join (a b : string) : string :=
  if decide (a = EmptyString) then (if decide (b = EmptyString) then EmptyString else Clean b)
  else Clean (a ++ "/" ++ b).

End filepath.

(** ** The cache and its environment

    Times are nanoseconds on one time line, as Go's [time.Time] compares
    them; [time.Duration] is a signed 64-bit count of nanoseconds. *)

Inductive error :=
| PathError (op path : string)      (* [os.Stat] failed *)
| DriverError (msg : string).       (* [driver.PProf] failed *)

(** [os.FileInfo], as far as the program looks at it. *)
Record FileInfo := { ModTime : Z; IsDir : bool }.

Module time.

Definition Minute : Z := 60 * 1000000000.
Definition maxDuration : Z := 2 ^ 63 - 1.
Definition minDuration : Z := - 2 ^ 63.

(** [t.After(u)]. *)
Definition After (t u : Z) : bool := u <? t.

(** [t.Sub(u)]: the duration [t - u], saturated at the ends of the
    [Duration] range. *)
Definition Sub (t u : Z) : Z :=
  if maxDuration <? t - u then maxDuration
  else if t - u <? minDuration then minDuration
  else t - u.

End time.

(** [profileTTL]: 30 minutes. *)
Definition profileTTL : Z := 30 * time.Minute.

Definition StatusFound : Z := 302.
Definition StatusNotFound : Z := 404.
Definition StatusInternalServerError : Z := 500.

(** ** The directory listing's helpers

    [toBaseName] of [DirListRich] and the functions that the listing's
    template calls. *)

Module dirlist.

Definition backslash : Ascii.ascii := Ascii.ascii_of_nat 92.

(** [c == '/' || c == '\\']. *)
Definition is_separator (c : Ascii.ascii) : bool :=
  Ascii.eqb c filepath.slash || Ascii.eqb c backslash.

(** The loop [for i := n; i >= 0; i--] of [toBaseName], with [count] the
    number of bytes still to look at, [i + 1]: the index of the first
    separator met on the way down. *)
Fixpoint last_separator (s : string) (count : nat) : option nat :=
  match count with
  | O => None
  | S i =>
      match String.get i s with
      | Some c => if is_separator c then Some i else last_separator s i
      | None => last_separator s i
      end
  end.

Definition inspect {A : Type} (a : A) : {b : A | a = b} := exist _ a eq_refl.

(** [toBaseName]: a separator at the end is removed and the function
    retries; otherwise the result is what follows the last separator. *)
Equations? toBaseName (s : string) : string by wf (String.length s) lt :=
  toBaseName s with inspect (last_separator s (String.length s)) := {
    | exist _ None _ := s;
    | exist _ (Some i) _ with inspect (Nat.eqb i (String.length s - 1)) := {
        | exist _ true _ := toBaseName (strings.slice_to (String.length s - 1) s);
        | exist _ false _ := strings.slice_from (S i) s } }.
Proof.
  assert (∀ (t : string) (k : nat), (k < String.length t)%nat →
            (String.length (strings.slice_to k t) < String.length t)%nat) as Hshort.
  { induction t as [|c t IH]; intros [|k]; simpl; try lia.
    intros Hk. specialize (IH k). lia. }
  apply Hshort. destruct s; simpl in *; [discriminate | lia].
Qed.

(** No byte of [s] is a separator. *)
Definition no_separator (s : string) : Prop :=
  ∀ j c, String.get j s = Some c → is_separator c = false.

(** The template's [isRoot]. *)
Definition isRoot (path : string) : bool :=
  String.eqb path "/" || String.eqb path EmptyString.

(** The template's [parentPath]; [None] is the panic of [p[:lastSlash]]
    when [lastSlash] is [-1]. *)
Definition parentPath (p : string) : option string :=
  let p := if strings.HasSuffix p "/"
           then strings.slice_to (String.length p - 1) p else p in
  match strings.LastIndex p "/" with
  | Some O => Some "/"
  | Some lastSlash => Some (strings.slice_to lastSlash p)
  | None => None
  end.

(** [int64] arithmetic wraps around. *)
Definition int64 (x : Z) : Z := (x + 2 ^ 63) mod 2 ^ 64 - 2 ^ 63.

(** The loop of the template's [formatBytes]:
    [for n := b / unit; n >= unit; n /= unit { div *= unit; exp++ }]. *)
Equations? formatBytes_loop (n div : Z) (exp : nat) : Z * nat
    by wf (Z.to_nat n) lt :=
  formatBytes_loop n div exp with inspect (1000 <=? n) := {
    | exist _ true _ :=
        formatBytes_loop (Z.quot n 1000) (int64 (div * 1000)) (S exp);
    | exist _ false _ := (div, exp) }.
Proof.
  apply Z.leb_le in e. apply Z2Nat.inj_lt; [|lia|].
  - apply Z.quot_pos; lia.
  - apply Z.quot_lt; lia.
Qed.

(** What [formatBytes] prints: the number of bytes as it is, or the
    quotient of [b] by [div], as a float with one decimal, followed by the
    letter of the unit; no letter is the panic of an index out of range. *)
Inductive formatted :=
| Bytes (b : Z)
| Scaled (b div : Z) (letter : option Ascii.ascii).

Definition formatBytes (b : Z) : formatted :=
  if b <? 1000 then Bytes b
  else
    let '(div, exp) := formatBytes_loop (Z.quot b 1000) 1000 0 in
    Scaled b div (String.get exp "kMGTPE").

End dirlist.

(** The package. *)

Module main.

Section Program.

(** The [http.Handler] values that pprof's driver produces are opaque. *)
Context {Handler : Type}.

(** External collaborators: [driver.PProf] run on the profile at [fp]
    either fails or calls [HTTPServer] with the handlers of the views;
    [filepath.Join] is Go's; [repoPath] is the [-p] flag. *)
Variable driver_PProf : string → error + gmap string Handler.
Variable filepath_Join : string → string → string.
Variable repoPath : string.

(** The wrapper that [HTTPServer] installs over the handler of [path]:
    it writes the navigation bar, then serves [handler]. *)
Inductive navHandler := NavHandler (path : string) (handler : Handler).

(** [PProfHandler]; the program holds it by pointer, [ptr] is the
    address. [args.Handlers] is the only part of [args] ever read. *)
Record PProfHandler := {
  ptr : nat;
  args_Handlers : gmap string navHandler;
  time : Z;
}.

(** The process and what it sees of the machine: [profileMap], the file
    system as [os.Stat] reports it, the clock, the next free address, and
    a log of the calls of [driver.PProf]. *)
Record World := {
  profileMap : gmap string PProfHandler;
  files : gmap string FileInfo;
  now : Z;
  next_ptr : nat;
  pprof_calls : list string;
}.

Definition result : Type := error + PProfHandler.

Definition os_Stat (fp : string) (w : World) : error + FileInfo :=
  match files w !! fp with
  | Some info => inr info
  | None => inl (PathError "stat" fp)
  end.

Definition profileMap_Delete (fp : string) (w : World) : World :=
  {| profileMap := delete fp (profileMap w); files := files w; now := now w;
     next_ptr := next_ptr w; pprof_calls := pprof_calls w |}.

Definition profileMap_Store (fp : string) (ph : PProfHandler) (w : World) : World :=
  {| profileMap := <[fp := ph]> (profileMap w); files := files w; now := now w;
     next_ptr := next_ptr w; pprof_calls := pprof_calls w |}.

(** The [HTTPServer] callback: every handler of [args.Handlers] is
    replaced by its wrapper, under the same key. *)
Definition HTTPServer (handlers : gmap string Handler) : gmap string navHandler :=
  map_imap (λ path handler, Some (NavHandler path handler)) handlers.

(** [ph := &PProfHandler{}] and [driver.PProf(opts)]: one address is
    taken, the call is logged, and on success the callback has filled
    [ph] with the clock's reading and the wrapped handlers. *)
Definition run_PProf (fp : string) (w : World) : result * World :=
  let w' := {| profileMap := profileMap w; files := files w; now := now w;
               next_ptr := S (next_ptr w);
               pprof_calls := pprof_calls w ++ [fp] |} in
  match driver_PProf fp with
  | inl err => (inl err, w')
  | inr handlers =>
      (inr {| ptr := next_ptr w; args_Handlers := HTTPServer handlers;
              time := now w |}, w')
  end.

(** The part of [getHandler] under [mu]: the second look at the map, then
    the build and the store. *)
Definition getHandler_locked (fp : string) (w : World) : result * World :=
  match profileMap w !! fp with
  | Some v => (inr v, w)
  | None =>
      match run_PProf fp w with
      | (inl err, w') => (inl err, w')
      | (inr ph, w') => (inr ph, profileMap_Store fp ph w')
      end
  end.

(** [getHandler], run with no other goroutine in between. *)
Definition getHandler (fp : string) (w : World) : result * World :=
  match os_Stat fp w with
  | inl err => (inl err, w)
  | inr info =>
      match profileMap w !! fp with
      | Some ph =>
          if time.After (ModTime info) (time ph)
          then getHandler_locked fp (profileMap_Delete fp w)
          else (inr ph, w)
      | None => getHandler_locked fp w
      end
  end.

(** One sweep of [cleanupProfiles] with the clock at [now w]:
    [profileMap.Range] visits every entry and deletes the ones with
    [time.Since(ph.time) > profileTTL]. *)
Definition time_Since (w : World) (t : Z) : Z := time.Sub (now w) t.

Definition sweep_entry (w : World) (key : string) (ph : PProfHandler)
    (m : gmap string PProfHandler) : gmap string PProfHandler :=
  if profileTTL <? time_Since w (time ph) then delete key m else m.

Definition cleanupProfiles_sweep (w : World) : World :=
  {| profileMap := map_fold (sweep_entry w) (profileMap w) (profileMap w);
     files := files w; now := now w; next_ptr := next_ptr w;
     pprof_calls := pprof_calls w |}.

(** ** The route [GET /*filepath]

    What the handler does to the response is a list of events, in order.
    [c.Param("filepath")] of the catch-all route is the request path. *)

Inductive event :=
| AbortWithError (code : Z) (err : error)
| ServeHTTP (handler : navHandler)
| WriteHeader (code : Z)
| Redirect (code : Z) (location : string)
| fileServer_ServeHTTP.

(** [if after is empty { after = "/" }]. *)
Definition subRoute (after : string) : string :=
  if decide (after = EmptyString) then "/" else after.

Definition route (URL_Path : string) (w : World) : list event * World :=
  match strings.Cut URL_Path "/ui" with
  | (before, after, true) =>
      let fp := filepath_Join repoPath before in
      match getHandler fp w with
      | (inl err, w') => ([AbortWithError StatusInternalServerError err], w')
      | (inr ph, w') =>
          match args_Handlers ph !! subRoute after with
          | Some handler => ([ServeHTTP handler], w')
          | None => ([], w')
          end
      end
  | (before, _, false) =>
      let file := URL_Path in
      match os_Stat (filepath_Join repoPath file) w with
      | inl _ => ([WriteHeader StatusNotFound], w)
      | inr info =>
          if negb (IsDir info) then
            let fp := filepath_Join repoPath before in
            match getHandler fp w with
            | (inl err, w') => ([AbortWithError StatusInternalServerError err], w')
            | (inr _, w') =>
                ([Redirect StatusFound (URL_Path ++ "/ui/"); fileServer_ServeHTTP], w')
            end
          else ([fileServer_ServeHTTP], w)
      end
  end.

(** ** Goroutines running [getHandler]

    Between two accesses to shared state another goroutine may run. A
    goroutine inside [getHandler] is at one of these program points, named
    after the statement it executes next. *)

Inductive pc :=
| pc_Stat                      (* [os.Stat(fp)] *)
| pc_Load (info : FileInfo)    (* the first [profileMap.Load(fp)] *)
| pc_Delete                    (* [profileMap.Delete(fp)] *)
| pc_Lock                      (* [mu.Lock()] *)
| pc_Recheck                   (* the second [profileMap.Load(fp)] *)
| pc_PProf                     (* [driver.PProf(opts)] *)
| pc_Store (ph : PProfHandler) (* [profileMap.Store(fp, ph)] *)
| pc_Unlock (r : result)       (* the deferred [mu.Unlock()] *)
| pc_Return (r : result).      (* back in the caller, with [r] *)

(** One statement of [getHandler(fp)]; [mu] is [true] while the mutex is
    held, and [mu.Lock()] cannot run then. *)
Definition getHandler_step (fp : string) (p : pc) (w : World) (mu : bool)
    : option (pc * World * bool) :=
  match p with
  | pc_Stat =>
      match os_Stat fp w with
      | inl err => Some (pc_Return (inl err), w, mu)
      | inr info => Some (pc_Load info, w, mu)
      end
  | pc_Load info =>
      match profileMap w !! fp with
      | Some ph =>
          if time.After (ModTime info) (time ph) then Some (pc_Delete, w, mu)
          else Some (pc_Return (inr ph), w, mu)
      | None => Some (pc_Lock, w, mu)
      end
  | pc_Delete => Some (pc_Lock, profileMap_Delete fp w, mu)
  | pc_Lock => if mu then None else Some (pc_Recheck, w, true)
  | pc_Recheck =>
      match profileMap w !! fp with
      | Some v => Some (pc_Unlock (inr v), w, mu)
      | None => Some (pc_PProf, w, mu)
      end
  | pc_PProf =>
      match run_PProf fp w with
      | (inl err, w') => Some (pc_Unlock (inl err), w', mu)
      | (inr ph, w') => Some (pc_Store ph, w', mu)
      end
  | pc_Store ph => Some (pc_Unlock (inr ph), profileMap_Store fp ph w, mu)
  | pc_Unlock r => Some (pc_Return r, w, false)
  | pc_Return _ => None
  end.

(** The goroutine of [cleanupProfiles], which [main] starts. It sleeps or
    is in [profileMap.Range] between two entries, or it is in the function
    that [Range] calls on an entry, at one of its two statements. *)
Inductive cleanup_pc :=
| cl_Range                                     (* asleep, or between two entries *)
| cl_Since (key : string) (ph : PProfHandler)  (* [time.Since(ph.time) > profileTTL] *)
| cl_Delete (key : string).                    (* [profileMap.Delete(key)] *)

(** [Range] calls the function on the entry of [key]. Which entries it
    visits, in which order and when, is left open: any entry that is in
    the map at that moment. *)
Definition Range_visit (key : string) (c : cleanup_pc) (w : World)
    : option cleanup_pc :=
  match c with
  | cl_Range =>
      match profileMap w !! key with
      | Some ph => Some (cl_Since key ph)
      | None => None
      end
  | _ => None
  end.

(** One statement of the function that [cleanupProfiles] hands to
    [Range]. *)
Definition cleanupProfiles_step (c : cleanup_pc) (w : World)
    : option (cleanup_pc * World) :=
  match c with
  | cl_Range => None
  | cl_Since key ph =>
      if profileTTL <? time_Since w (time ph) then Some (cl_Delete key, w)
      else Some (cl_Range, w)
  | cl_Delete key => Some (cl_Range, profileMap_Delete key w)
  end.

(** The entry that the goroutine of [cleanupProfiles] is at. *)
Definition cleanup_key (c : cleanup_pc) : option string :=
  match c with
  | cl_Range => None
  | cl_Since key _ | cl_Delete key => Some key
  end.

(** The process: the world, the mutex [mu], the goroutines that are
    inside [getHandler], each with its argument, and the goroutine of
    [cleanupProfiles]. *)
Record System := {
  world : World;
  mu : bool;
  goroutines : list (string * pc);
  cleanup : cleanup_pc;
}.

(** What can happen next: goroutine [g] runs one statement, time passes,
    somebody writes the file [fp], [Range] visits the entry of [key], or
    the goroutine of [cleanupProfiles] runs one statement. *)
Inductive action :=
| Run (g : nat)
| Tick (d : Z)
| WriteFile (fp : string)
| Visit (key : string)
| Sweep.

Definition advance (d : Z) (w : World) : World :=
  {| profileMap := profileMap w; files := files w; now := now w + d;
     next_ptr := next_ptr w; pprof_calls := pprof_calls w |}.

Definition write_file (fp : string) (w : World) : World :=
  {| profileMap := profileMap w;
     files := <[fp := {| ModTime := now w; IsDir := false |}]> (files w);
     now := now w; next_ptr := next_ptr w; pprof_calls := pprof_calls w |}.

(** The file [fp] is replaced by one with the attributes [info], as by
    [mv] or [cp -p], which keep the modification time of their source. *)
Definition replace_file (fp : string) (info : FileInfo) (w : World) : World :=
  {| profileMap := profileMap w; files := <[fp := info]> (files w);
     now := now w; next_ptr := next_ptr w; pprof_calls := pprof_calls w |}.

Definition step (a : action) (s : System) : option System :=
  match a with
  | Run g =>
      match goroutines s !! g with
      | Some (fp, p) =>
          match getHandler_step fp p (world s) (mu s) with
          | Some (p', w', mu') =>
              Some {| world := w'; mu := mu';
                      goroutines := <[g := (fp, p')]> (goroutines s);
                      cleanup := cleanup s |}
          | None => None
          end
      | None => None
      end
  | Tick d =>
      if 0 <=? d
      then Some {| world := advance d (world s); mu := mu s;
                   goroutines := goroutines s; cleanup := cleanup s |}
      else None
  | WriteFile fp =>
      Some {| world := write_file fp (world s); mu := mu s;
              goroutines := goroutines s; cleanup := cleanup s |}
  | Visit key =>
      match Range_visit key (cleanup s) (world s) with
      | Some c' =>
          Some {| world := world s; mu := mu s; goroutines := goroutines s;
                  cleanup := c' |}
      | None => None
      end
  | Sweep =>
      match cleanupProfiles_step (cleanup s) (world s) with
      | Some (c', w') =>
          Some {| world := w'; mu := mu s; goroutines := goroutines s;
                  cleanup := c' |}
      | None => None
      end
  end.

Fixpoint run (sched : list action) (s : System) : option System :=
  match sched with
  | [] => Some s
  | a :: rest =>
      match step a s with
      | Some s' => run rest s'
      | None => None
      end
  end.

(** The goroutines that enter [getHandler], one for each path of [fps],
    while the goroutine of [cleanupProfiles] is at [c]. *)
Definition entering (c : cleanup_pc) (fps : list string) (w : World) : System :=
  {| world := w; mu := false; goroutines := (λ fp, (fp, pc_Stat)) <$> fps;
     cleanup := c |}.

(** [N] callers enter [getHandler(fp)] at once. *)
Definition callers (N : nat) (fp : string) (w : World) : System :=
  {| world := w; mu := false; goroutines := replicate N (fp, pc_Stat);
     cleanup := cl_Range |}.

(** Every goroutine is back in its caller with the result [r]. *)
Definition all_returned (r : result) (s : System) : Prop :=
  ∀ g fp p, goroutines s !! g = Some (fp, p) → p = pc_Return r.

(** The file system is left alone during the run. *)
Definition no_writes (sched : list action) : Prop :=
  ∀ fp, WriteFile fp ∉ sched.

(** The file [fp] is left alone during the run. *)
Definition no_writes_to (fp : string) (sched : list action) : Prop :=
  WriteFile fp ∉ sched.

(** The number of statements that goroutines run in a schedule. *)
Fixpoint statements_run (sched : list action) : nat :=
  match sched with
  | [] => 0
  | Run _ :: rest => S (statements_run rest)
  | _ :: rest => statements_run rest
  end.

End Program.

End main.

Import main.

(** ** What the theorems speak about *)

Module Outcome.

Section Outcomes.

Context {Handler : Type}.
Variable driver_PProf : string → error + gmap string Handler.
Variable filepath_Join : string → string → string.
Variable repoPath : string.

(** The request is served by the handler stored under exactly [key], if
    there is one. *)
Definition served_under (ph : @PProfHandler Handler) (key : string) : list event :=
  match args_Handlers ph !! key with
  | Some handler => [ServeHTTP handler]
  | None => []
  end.

(** The request goes through the cache: [getHandler] on the joined path of
    [resource], then the lookup of [key]. *)
Definition through_cache (resource key : string) (w : World) : list event * World :=
  match getHandler driver_PProf (filepath_Join repoPath resource) w with
  | (inl err, w') => ([AbortWithError StatusInternalServerError err], w')
  | (inr ph, w') => (served_under ph key, w')
  end.

(** The request is a plain file's: [getHandler] on its joined path, then
    the redirect to the path with [/ui/] appended. *)
Definition build_then_redirect (URL_Path : string) (w : World)
    : list (@event Handler) * World :=
  match getHandler driver_PProf (filepath_Join repoPath URL_Path) w with
  | (inl err, w') => ([AbortWithError StatusInternalServerError err], w')
  | (inr _, w') =>
      ([Redirect StatusFound (URL_Path ++ "/ui/"); fileServer_ServeHTTP], w')
  end.

End Outcomes.

End Outcome.

Import Outcome.

(** The normalisation that the specification asks for: runs of slashes
    collapse to one, and a slash at the end is dropped, except from the
    root. *)
Fixpoint spec_collapse_slashes (after : string) : string :=
  match after with
  | EmptyString => EmptyString
  | String c rest =>
      if Ascii.eqb c filepath.slash then
        match rest with
        | EmptyString => EmptyString
        | String d _ =>
            if Ascii.eqb d filepath.slash then spec_collapse_slashes rest
            else String c (spec_collapse_slashes rest)
        end
      else String c (spec_collapse_slashes rest)
  end.

Definition spec_normalize_after (after : string) : string :=
  match spec_collapse_slashes after with
  | EmptyString => "/"
  | s => s
  end.

(** ** The discipline of the mutex *)

Section Locking.

Context {Handler : Type}.

(** The statements between [mu.Lock()] and the deferred [mu.Unlock()]. *)
Definition in_critical_section (p : @pc Handler) : bool :=
  match p with
  | pc_Recheck | pc_PProf | pc_Store _ | pc_Unlock _ => true
  | _ => false
  end.

(** How the mutex and the place of a goroutine change together. *)
Definition lock_protocol (p p' : @pc Handler) (mu mu' : bool) : Prop :=
  (in_critical_section p = in_critical_section p' ∧ mu' = mu) ∨
  (in_critical_section p = false ∧ in_critical_section p' = true ∧
   mu = false ∧ mu' = true) ∨
  (in_critical_section p = true ∧ in_critical_section p' = false ∧ mu' = false).

(** [mu] is held exactly while some goroutine is between [mu.Lock()] and
    [mu.Unlock()], and then by one only. *)
Record lock_inv (s : @System Handler) : Prop := {
  lock_free : mu s = false →
    ∀ g k p, goroutines s !! g = Some (k, p) → in_critical_section p = false;
  lock_held : mu s = true →
    ∃ g k p, goroutines s !! g = Some (k, p) ∧ in_critical_section p = true;
  lock_mutex : ∀ g1 g2 k1 k2 p1 p2,
    goroutines s !! g1 = Some (k1, p1) → goroutines s !! g2 = Some (k2, p2) →
    in_critical_section p1 = true → in_critical_section p2 = true → g1 = g2;
}.

(** The statements a goroutine at [p] has still to run, at most. *)
Definition steps_left (p : @pc Handler) : nat :=
  match p with
  | pc_Stat => 8
  | pc_Load _ => 7
  | pc_Delete => 6
  | pc_Lock => 5
  | pc_Recheck => 4
  | pc_PProf => 3
  | pc_Store _ => 2
  | pc_Unlock _ => 1
  | pc_Return _ => 0
  end.

Definition work_left (s : @System Handler) : nat :=
  sum_list (map (λ g, steps_left g.2) (goroutines s)).

(** The goroutines that are past [driver.PProf]. *)
Definition has_built (p : @pc Handler) : nat :=
  match p with
  | pc_Unlock _ | pc_Return _ => 1
  | _ => 0
  end.

Definition builds_done (s : @System Handler) : nat :=
  sum_list (map (λ g, has_built g.2) (goroutines s)).

End Locking.

(** ** The invariant of the callers of one key, when the driver succeeds

    [N] goroutines are inside [getHandler(fp)]; the file at [fp] has the
    attributes [info] and is not written; [calls0] is the log of the
    driver's calls and [t0] the clock when the goroutines entered, and
    the clock has not gone beyond [t0 + profileTTL]. *)

Section Invariant.

Context {Handler : Type}.
Variable fp : string.
Variable info : FileInfo.
Variable handlers : gmap string Handler.
Variable calls0 : list string.
Variable t0 : Z.

(** An entry that the callers may reuse: it is not older than the file,
    was built after the callers entered, and holds the driver's
    handlers. *)
Definition entry_ok (ph : @PProfHandler Handler) : Prop :=
  ModTime info ≤ time ph ∧ t0 ≤ time ph ∧ args_Handlers ph = HTTPServer handlers.

(** What holds of the world when a goroutine is at [p]. *)
Definition pc_inv (w : @World Handler) (p : pc) : Prop :=
  match p with
  | pc_Stat | pc_Lock | pc_Recheck => True
  | pc_Load i => i = info
  | pc_Delete => False
  | pc_PProf => profileMap w !! fp = None ∧ pprof_calls w = calls0
  | pc_Store ph =>
      profileMap w !! fp = None ∧ pprof_calls w = (calls0 ++ [fp])%list ∧
      entry_ok ph
  | pc_Unlock r | pc_Return r => ∃ ph, r = inr ph ∧ profileMap w !! fp = Some ph
  end.

(** The goroutine of [cleanupProfiles] is not about to delete the entry
    of [fp]. *)
Definition cleanup_inv (c : @cleanup_pc Handler) : Prop :=
  match c with
  | cl_Range => True
  | cl_Since key ph => key = fp → t0 ≤ time ph
  | cl_Delete key => key ≠ fp
  end.

Record single_flight_inv (N : nat) (s : @System Handler) : Prop := {
  inv_count : length (goroutines s) = N;
  inv_args : ∀ g k p, goroutines s !! g = Some (k, p) → k = fp;
  inv_file : files (world s) !! fp = Some info;
  inv_clock : ModTime info ≤ now (world s);
  inv_start : t0 ≤ now (world s);
  inv_lock : lock_inv s;
  inv_entry : ∀ ph, profileMap (world s) !! fp = Some ph →
    entry_ok ph ∧ pprof_calls (world s) = (calls0 ++ [fp])%list;
  inv_unbuilt : profileMap (world s) !! fp = None →
    pprof_calls (world s) = calls0 ∨
    ∃ g k ph, goroutines s !! g = Some (k, pc_Store ph);
  inv_pc : ∀ g k p, goroutines s !! g = Some (k, p) → pc_inv (world s) p;
  inv_cleanup : cleanup_inv (cleanup s);
}.

End Invariant.

(** ** The invariant of the callers of one key, when the driver fails

    Nothing is ever stored under [fp], and each caller that is past the
    driver has added one call to the log and holds the error [err]. *)

Section Failing.

Context {Handler : Type}.
Variable fp : string.
Variable err : error.
Variable calls0 : list string.

Definition failing_pc (p : @pc Handler) : Prop :=
  match p with
  | pc_Delete | pc_Store _ => False
  | pc_Unlock r | pc_Return r => r = inl err
  | _ => True
  end.

Record failing_inv (N : nat) (s : @System Handler) : Prop := {
  fail_count : length (goroutines s) = N;
  fail_args : ∀ g k p, goroutines s !! g = Some (k, p) → k = fp;
  fail_file : is_Some (files (world s) !! fp);
  fail_cold : profileMap (world s) !! fp = None;
  fail_calls :
    pprof_calls (world s) = (calls0 ++ replicate (builds_done s) fp)%list;
  fail_pc : ∀ g k p, goroutines s !! g = Some (k, p) → failing_pc p;
}.

End Failing.

(** C1 as the specification has it: whatever the interleaving of the [N]
    callers of [fp], once all of them have returned the driver has been
    called exactly once and all hold the same result. *)
Definition spec_single_flight {Handler : Type}
    (driver_PProf : string → error + gmap string Handler)
    (N : nat) (fp : string) (w : @World Handler) : Prop :=
  ∀ sched s',
    no_writes sched →
    run driver_PProf sched (callers N fp w) = Some s' →
    work_left s' = 0%nat →
    pprof_calls (world s') = (pprof_calls w ++ [fp])%list ∧
    ∃ r, all_returned r s'.

(** C2 as the specification has it: an entry is valid while the
    modification time that the file had at the build is the one it has
    now. *)
Definition spec_still_valid (at_build current : FileInfo) : Prop :=
  ModTime at_build = ModTime current.

(** ** A small machine for the closed examples

    The served directory is the working directory; it holds the profile
    [cpu.prof], for which the driver builds an index and a graph view, the
    file [bad.prof], on which the driver fails, and the directory [sub].
    The handlers are named by strings. *)

Module Example.

Definition driver_PProf (fp : string) : error + gmap string string :=
  if decide (fp = "cpu.prof")
  then inr (<["/" := "index"]> (<["/graph" := "graph"]> ∅))
  else inl (DriverError "unrecognized profile format").

Definition fs : gmap string FileInfo :=
  <["cpu.prof" := {| ModTime := 50; IsDir := false |}]>
  (<["bad.prof" := {| ModTime := 50; IsDir := false |}]>
  (<["sub" := {| ModTime := 40; IsDir := true |}]>
  (<["." := {| ModTime := 40; IsDir := true |}]> ∅))).

(** The process right after its start, at time 100. *)
Definition cold : @World string :=
  {| profileMap := ∅; files := fs; now := 100; next_ptr := 0; pprof_calls := [] |}.

(** An entry built at time [t]. *)
Definition entry (t : Z) : @PProfHandler string :=
  {| ptr := 0; args_Handlers := HTTPServer (<["/" := "index"]> ∅); time := t |}.

(** The process at time 100 with an entry under [fp] that was built at
    time 10, before the file was last written. *)
Definition with_old_entry (fp : string) : @World string :=
  {| profileMap := <[fp := entry 10]> ∅; files := fs; now := 100;
     next_ptr := 1; pprof_calls := [] |}.

Definition route : string → World → list event * World :=
  route driver_PProf filepath.Join ".".

(** The process started at time 20, before the files were last written:
    their modification times are ahead of the clock. *)
Definition early : @World string :=
  {| profileMap := ∅; files := fs; now := 20; next_ptr := 0; pprof_calls := [] |}.

(** Two callers that both miss, and pass the mutex one after the other. *)
Definition both_miss : list action :=
  [Run 0; Run 1; Run 0; Run 1;
   Run 0; Run 0; Run 0; Run 0;
   Run 1; Run 1; Run 1; Run 1].

(** Two callers, the second one entirely after the first; the second one
    finds the first one's entry on its first look, and deletes it. *)
Definition second_after_first : list action :=
  replicate 7 (Run 0) ++ replicate 8 (Run 1).

(** Two callers; the file is written after the first one's build and
    before the second one's stat; the first one stores its entry while the
    second one waits for the mutex. *)
Definition write_during_build : list action :=
  [Run 0; Run 0; Run 0; Run 0; Run 0; Tick 10; WriteFile "cpu.prof"; Run 1].

Definition then_recheck : list action :=
  [Run 1; Run 0; Run 0; Run 1; Run 1; Run 1].

(** Three callers: all stat, two miss and queue at the mutex, the second
    one builds, the third one misses as well before the entry is stored,
    and both latecomers find the entry under the lock. Meanwhile
    [cleanupProfiles] visits the new entry and finds it young, and another
    file is written. *)
Definition beside_cleanup : list action :=
  [Run 0; Run 1; Run 2; Run 0; Run 1; Run 1; Tick 5; Run 1; Run 1; Run 2;
   Run 1; Visit "cpu.prof"; Run 1; WriteFile "bad.prof"; Run 2; Sweep; Run 2;
   Run 2; Run 0; Run 0; Run 0].

(** Two callers, the second one 31 minutes after the first; in between
    [cleanupProfiles] visits the first one's entry and deletes it. *)
Definition swept_in_between : list action :=
  replicate 7 (Run 0) ++
  [Tick (31 * time.Minute); Visit "cpu.prof"; Sweep; Sweep] ++
  replicate 7 (Run 1).

(** Two callers, one after the other; in between the file is written. *)
Definition written_in_between : list action :=
  replicate 7 (Run 0) ++ [Tick 5; WriteFile "cpu.prof"] ++ replicate 8 (Run 1).

(** Two callers, one after the other; in between [cleanupProfiles] runs
    the [profileMap.Delete] that it was about to run when they entered. *)
Definition deleted_in_between : list action :=
  replicate 7 (Run 0) ++ [Sweep] ++ replicate 7 (Run 1).

(** The process after a first request for [cpu.prof], which has built
    the entry at time 100 from the file last written at time 50 ... *)
Definition built : @World string :=
  (getHandler driver_PProf "cpu.prof" cold).2.

(** ... and after the file has been replaced by one last written at
    time 60. *)
Definition replaced : @World string :=
  replace_file "cpu.prof" {| ModTime := 60; IsDir := false |} built.

End Example.

(** * Facts *)

(** ** [strings.Cut] *)

Section strings_facts.
Import strings.

Lemma HasPrefix_app (s p : string) :
  HasPrefix s p = true ↔ ∃ a, s = p ++ a.
Proof.
  revert s. induction p as [|c p IH]; intros s; simpl.
  - split; [intros _; by exists s | done].
  - destruct s as [|d s]; simpl.
    + split; [done | intros [a Ha]; discriminate].
    + destruct (Ascii.eqb_spec c d) as [->|Hne].
      * rewrite IH. split; intros [a Ha]; exists a; [by rewrite Ha | by inversion Ha].
      * split; [done | intros [a Ha]; inversion Ha; by subst].
Qed.

Lemma slice_to_app (b r : string) : slice_to (String.length b) (b ++ r) = b.
Proof. induction b as [|c b IH]; simpl; [by destruct r | by rewrite IH]. Qed.

Lemma slice_from_app (b r : string) : slice_from (String.length b) (b ++ r) = r.
Proof. induction b as [|c b IH]; simpl; [by destruct r | done]. Qed.

Lemma string_app_assoc (a b c : string) : (a ++ b) ++ c = a ++ b ++ c.
Proof. induction a as [|x a IH]; simpl; [done | by rewrite IH]. Qed.

Lemma string_app_length (a b : string) :
  String.length (a ++ b) = (String.length a + String.length b)%nat.
Proof. induction a as [|x a IH]; simpl; [done | by rewrite IH]. Qed.

(** [Index] finds an occurrence, and the first one. *)
Lemma Index_Some (s sep : string) (i : nat) :
  Index s sep = Some i →
  occurs_at sep i s ∧ ∀ j, occurs_at sep j s → (i ≤ j)%nat.
Proof.
  revert i. induction s as [|c s IH]; intros i; simpl.
  - destruct (HasPrefix EmptyString sep) eqn:Hp; [|done].
    intros [= <-]. apply HasPrefix_app in Hp as [a Ha]. split.
    + by exists EmptyString, a.
    + intros j _. lia.
  - destruct (HasPrefix (String c s) sep) eqn:Hp.
    + intros [= <-]. apply HasPrefix_app in Hp as [a Ha]. split.
      * by exists EmptyString, a.
      * intros j _. lia.
    + destruct (Index s sep) as [k|] eqn:Hk; simpl; [|done].
      intros [= <-]. destruct (IH k eq_refl) as [(b & a & -> & Hb) Hmin]. split.
      * exists (String c b), a. simpl. by rewrite Hb.
      * intros j (b' & a' & Heq & Hb').
        destruct b' as [|c' b']; simpl in *.
        -- assert (HasPrefix (String c (b ++ sep ++ a)) sep = true) as Hp'
             by (apply HasPrefix_app; by exists a').
           congruence.
        -- inversion Heq; subst. apply le_n_S, Hmin. by exists b', a'.
Qed.

Lemma Index_None (s sep : string) :
  Index s sep = None → ∀ j, ¬ occurs_at sep j s.
Proof.
  induction s as [|c s IH]; simpl.
  - destruct (HasPrefix EmptyString sep) eqn:Hp; [done|].
    intros _ j (b & a & Heq & _). destruct b; [|done].
    assert (HasPrefix EmptyString sep = true) by (apply HasPrefix_app; by exists a).
    congruence.
  - destruct (HasPrefix (String c s) sep) eqn:Hp; [done|].
    destruct (Index s sep) eqn:Hk; simpl; [done|].
    intros _ j (b & a & Heq & _). destruct b as [|c' b]; simpl in *.
    + assert (HasPrefix (String c s) sep = true) by (apply HasPrefix_app; by exists a).
      congruence.
    + inversion Heq; subst. apply (IH eq_refl (String.length b)). by exists b, a.
Qed.

(** What [Cut] returns when it finds the separator: the text before the
    first occurrence and the text after it. *)
Lemma Cut_true (s sep before after : string) :
  Cut s sep = (before, after, true) →
  s = before ++ sep ++ after ∧
  ∀ j, occurs_at sep j s → (String.length before ≤ j)%nat.
Proof.
  unfold Cut. destruct (Index s sep) as [i|] eqn:Hi; [|done].
  intros [= <- <-]. apply Index_Some in Hi as [(b & a & -> & <-) Hmin].
  rewrite slice_to_app.
  replace (String.length b + String.length sep)%nat
    with (String.length (b ++ sep)) by apply string_app_length.
  rewrite <- string_app_assoc, slice_from_app, string_app_assoc.
  split; [done | exact Hmin].
Qed.

Lemma Cut_false (s sep before after : string) :
  Cut s sep = (before, after, false) →
  before = s ∧ after = EmptyString ∧ ∀ j, ¬ occurs_at sep j s.
Proof.
  unfold Cut. destruct (Index s sep) as [i|] eqn:Hi; [done|].
  intros [= <- <-]. split_and!; [done..|]. by apply Index_None.
Qed.

(** Conversely, a path that contains the separator is cut at its first
    occurrence, wherever that is. *)
Lemma Cut_occurs (s sep : string) (j : nat) :
  occurs_at sep j s → ∃ before after, Cut s sep = (before, after, true).
Proof.
  intros Hocc. unfold Cut. destruct (Index s sep) as [i|] eqn:Hi; [eauto|].
  by apply Index_None with (j := j) in Hi.
Qed.

End strings_facts.

(** ** The route *)

Section route_facts.

Context {Handler : Type}.
Variable driver_PProf : string → error + gmap string Handler.
Variable filepath_Join : string → string → string.
Variable repoPath : string.

#[local] Abbreviation route := (route driver_PProf filepath_Join repoPath).
#[local] Abbreviation through_cache := (through_cache driver_PProf filepath_Join repoPath).
#[local] Abbreviation build_then_redirect :=
  (build_then_redirect driver_PProf filepath_Join repoPath).
#[local] Abbreviation getHandler := (getHandler driver_PProf).

Lemma route_marker (path before after : string) (w : @World Handler) :
  strings.Cut path "/ui" = (before, after, true) →
  route path w = through_cache before (subRoute after) w.
Proof.
  intros Hcut. unfold main.route, Outcome.through_cache, served_under.
  rewrite Hcut. destruct (getHandler _ w) as [[err|ph] w']; [done|].
  by destruct (args_Handlers ph !! _).
Qed.

Lemma Cut_no_marker (path : string) :
  (∀ j, ¬ strings.occurs_at "/ui" j path) →
  strings.Cut path "/ui" = (path, EmptyString, false).
Proof.
  intros Hno. unfold strings.Cut.
  destruct (strings.Index path "/ui") as [i|] eqn:Hi; [|done].
  apply Index_Some in Hi as [Hocc _]. by apply Hno in Hocc.
Qed.

Lemma route_no_marker (path : string) (w : @World Handler) :
  (∀ j, ¬ strings.occurs_at "/ui" j path) →
  route path w =
    match os_Stat (filepath_Join repoPath path) w with
    | inl _ => ([WriteHeader StatusNotFound], w)
    | inr info =>
        if IsDir info then ([fileServer_ServeHTTP], w)
        else build_then_redirect path w
    end.
Proof.
  intros Hno. unfold main.route, Outcome.build_then_redirect.
  rewrite (Cut_no_marker _ Hno).
  destruct (os_Stat _ w) as [err|info]; [done|].
  by destruct (IsDir info).
Qed.

(** C3: routing [/report.prof/ui/graph] gives the resource [/report.prof]
    and the sub-route [/graph]; routing [/report.prof/ui] gives the same
    resource and an empty suffix, which is looked up as [/]. *)
Theorem route_report_prof (w : @World Handler) :
  strings.Cut "/report.prof/ui/graph" "/ui" = ("/report.prof", "/graph", true) ∧
  route "/report.prof/ui/graph" w = through_cache "/report.prof" "/graph" w ∧
  strings.Cut "/report.prof/ui" "/ui" = ("/report.prof", EmptyString, true) ∧
  subRoute EmptyString = "/" ∧
  route "/report.prof/ui" w = through_cache "/report.prof" "/" w.
Proof.
  split_and!; try reflexivity.
  - exact (route_marker "/report.prof/ui/graph" "/report.prof" "/graph" w eq_refl).
  - exact (route_marker "/report.prof/ui" "/report.prof" EmptyString w eq_refl).
Qed.

(** C9: the marker is found by a substring cut. Every path in which the
    three characters [/ui] occur anywhere is cut at their first
    occurrence and goes through the cache; [/uint.prof] is cut into an
    empty resource and the sub-route [nt.prof]. *)
Theorem marker_is_substring_cut (path : string) (j : nat) (w : @World Handler) :
  strings.occurs_at "/ui" j path →
  (∃ before after,
      strings.Cut path "/ui" = (before, after, true) ∧
      path = before ++ "/ui" ++ after ∧
      (String.length before ≤ j)%nat ∧
      route path w = through_cache before (subRoute after) w) ∧
  strings.Cut "/uint.prof" "/ui" = (EmptyString, "nt.prof", true) ∧
  route "/uint.prof" w = through_cache EmptyString "nt.prof" w.
Proof.
  intros Hocc. split_and!.
  - destruct (Cut_occurs _ _ _ Hocc) as (before & after & Hcut).
    exists before, after. destruct (Cut_true _ _ _ _ Hcut) as [Heq Hmin].
    split_and!; [done | done | by apply Hmin | by apply route_marker].
  - reflexivity.
  - exact (route_marker "/uint.prof" EmptyString "nt.prof" w eq_refl).
Qed.

(** C10: in the branch without the marker the file server runs on every
    request whose stat succeeds and that is not answered with an error: on
    a directory it is all that runs, and on a regular file it runs on the
    same request right after the redirect has been issued. *)
Theorem file_server_runs_after_redirect
    (path : string) (info : FileInfo) (w : @World Handler) :
  (∀ j, ¬ strings.occurs_at "/ui" j path) →
  os_Stat (filepath_Join repoPath path) w = inr info →
  (IsDir info = true → route path w = ([fileServer_ServeHTTP], w)) ∧
  (IsDir info = false →
   ∀ ph w', getHandler (filepath_Join repoPath path) w = (inr ph, w') →
     route path w =
       ([Redirect StatusFound (path ++ "/ui/"); fileServer_ServeHTTP], w')).
Proof.
  intros Hno Hstat. rewrite (route_no_marker _ _ Hno), Hstat. split.
  - by intros ->.
  - intros -> ph w' Hget. unfold Outcome.build_then_redirect. by rewrite Hget.
Qed.

(** C8, as the code has it: the suffix after the marker is looked up as it
    is, but for the empty suffix, which is looked up as [/]. The request is
    served by the handler stored under exactly that string. So two
    requests for one resource are dispatched alike when their suffixes are
    equal, or are the empty suffix and [/]. *)
Theorem subroute_lookup_is_exact
    (path1 path2 before after1 after2 : string) (w : @World Handler) :
  strings.Cut path1 "/ui" = (before, after1, true) →
  strings.Cut path2 "/ui" = (before, after2, true) →
  after1 = after2 ∨ (subRoute after1 = "/" ∧ subRoute after2 = "/") →
  route path1 w = through_cache before (subRoute after1) w ∧
  route path2 w = route path1 w.
Proof.
  intros Hcut1 Hcut2 Hsame.
  rewrite (route_marker _ _ _ _ Hcut1), (route_marker _ _ _ _ Hcut2).
  split; [done|]. by destruct Hsame as [->|[-> ->]].
Qed.

End route_facts.

(** ** [getHandler], one call at a time *)

Section cache_facts.

Context {Handler : Type}.
Variable driver_PProf : string → error + gmap string Handler.

#[local] Abbreviation getHandler := (getHandler driver_PProf).
#[local] Abbreviation getHandler_locked := (getHandler_locked driver_PProf).
#[local] Abbreviation run_PProf := (run_PProf driver_PProf).

(** The build under the lock when the second look finds nothing. *)
Lemma getHandler_locked_miss (fp : string) (w : @World Handler) :
  profileMap w !! fp = None →
  ∃ r w', getHandler_locked fp w = (r, w') ∧
    pprof_calls w' = (pprof_calls w ++ [fp])%list ∧
    files w' = files w ∧ now w' = now w ∧ next_ptr w' = S (next_ptr w) ∧
    match driver_PProf fp with
    | inr handlers =>
        let ph' := {| ptr := next_ptr w; args_Handlers := HTTPServer handlers;
                      time := now w |} in
        r = inr ph' ∧ profileMap w' = <[fp := ph']> (profileMap w)
    | inl err => r = inl err ∧ profileMap w' = profileMap w
    end.
Proof.
  intros Hmiss. unfold main.getHandler_locked, main.run_PProf. rewrite Hmiss.
  destruct (driver_PProf fp) as [err|handlers]; simpl; eauto 10.
Qed.

(** A call that finds an entry not older than the file returns it and
    changes nothing. *)
Lemma getHandler_hit (fp : string) (info : FileInfo) (ph : PProfHandler)
    (w : @World Handler) :
  files w !! fp = Some info →
  profileMap w !! fp = Some ph →
  ModTime info ≤ time ph →
  getHandler fp w = (inr ph, w).
Proof.
  intros Hfile Hentry Hfresh. unfold main.getHandler, os_Stat, time.After.
  by rewrite Hfile, Hentry, (proj2 (Z.ltb_ge _ _) Hfresh).
Qed.

(** A call that finds no entry, or one older than the file, runs the
    driver once and stores what it has built, if anything. *)
Lemma getHandler_builds (fp : string) (info : FileInfo) (w : @World Handler) :
  files w !! fp = Some info →
  (∀ ph, profileMap w !! fp = Some ph → time ph < ModTime info) →
  ∃ r w', getHandler fp w = (r, w') ∧
    pprof_calls w' = (pprof_calls w ++ [fp])%list ∧
    files w' = files w ∧ now w' = now w ∧ next_ptr w' = S (next_ptr w) ∧
    (∀ key, key ≠ fp → profileMap w' !! key = profileMap w !! key) ∧
    match driver_PProf fp with
    | inr handlers =>
        let ph' := {| ptr := next_ptr w; args_Handlers := HTTPServer handlers;
                      time := now w |} in
        r = inr ph' ∧ profileMap w' !! fp = Some ph'
    | inl err => r = inl err ∧ profileMap w' !! fp = None
    end.
Proof.
  intros Hfile Hstale.
  assert (∃ v : @World Handler,
            getHandler fp w = getHandler_locked fp v ∧
            profileMap v = delete fp (profileMap w) ∧ files v = files w ∧
            now v = now w ∧ next_ptr v = next_ptr w ∧
            pprof_calls v = pprof_calls w)
    as (v & -> & Hmap & Hfiles & Hnow & Hptr & Hcalls).
  { unfold main.getHandler, os_Stat. rewrite Hfile.
    destruct (profileMap w !! fp) as [ph|] eqn:Hentry.
    - unfold time.After. rewrite (proj2 (Z.ltb_lt _ _) (Hstale ph eq_refl)).
      by exists (profileMap_Delete fp w).
    - exists w. split_and!; try done. by rewrite delete_id. }
  destruct (getHandler_locked_miss fp v)
    as (r & w' & -> & Hcalls' & Hfiles' & Hnow' & Hptr' & Hres).
  { rewrite Hmap. apply lookup_delete_eq. }
  exists r, w'. rewrite Hcalls', Hfiles', Hnow', Hptr', Hcalls, Hfiles, Hnow, Hptr.
  split_and!; try done.
  - intros key Hne. destruct (driver_PProf fp) as [err|handlers];
      destruct Hres as [_ ->]; rewrite Hmap;
      rewrite ?lookup_insert_ne by done; by rewrite lookup_delete_ne.
  - rewrite Hptr, Hnow in Hres.
    destruct (driver_PProf fp) as [err|handlers]; destruct Hres as [-> ->].
    + split; [done|]. rewrite Hmap. apply lookup_delete_eq.
    + split; [done|]. apply lookup_insert_eq.
Qed.

(** C2, as the code has it: an entry records the clock at its build, not
    the modification time of the file. A call of [getHandler] that finds
    an entry on its first look reuses it exactly when the file's
    modification time, as the call's [os.Stat] gave it, is not after that
    build time. When it is after, the call deletes the entry and, with no
    other goroutine in between, runs the driver exactly once: on success
    the new entry, built at the current time, replaces the old one; on
    failure the key is left without entry. Either way the old handler set
    is gone from the cache. Among other goroutines the first look does the
    same, whatever the state: the caller returns the entry it finds, or
    goes on to delete it. *)
Theorem entry_is_reused_by_build_time
    (fp : string) (info : FileInfo) (ph : PProfHandler) (w : @World Handler) :
  profileMap w !! fp = Some ph →
  (files w !! fp = Some info →
   (ModTime info ≤ time ph → getHandler fp w = (inr ph, w)) ∧
   (time ph < ModTime info →
    ∃ r w', getHandler fp w = (r, w') ∧
      pprof_calls w' = (pprof_calls w ++ [fp])%list ∧
      ((ptr ph < next_ptr w)%nat → profileMap w' !! fp ≠ Some ph) ∧
      match driver_PProf fp with
      | inr handlers =>
          let ph' := {| ptr := next_ptr w; args_Handlers := HTTPServer handlers;
                        time := now w |} in
          r = inr ph' ∧ profileMap w' = <[fp := ph']> (profileMap w)
      | inl err => r = inl err ∧ profileMap w' = delete fp (profileMap w)
      end)) ∧
  (∀ (s : @System Handler) (g : nat),
     world s = w →
     goroutines s !! g = Some (fp, pc_Load info) →
     (ModTime info ≤ time ph →
      step driver_PProf (Run g) s =
        Some {| world := w; mu := mu s;
                goroutines := <[g := (fp, pc_Return (inr ph))]> (goroutines s);
                cleanup := cleanup s |}) ∧
     (time ph < ModTime info →
      run driver_PProf [Run g; Run g] s =
        Some {| world := profileMap_Delete fp w; mu := mu s;
                goroutines := <[g := (fp, pc_Lock)]> (goroutines s);
                cleanup := cleanup s |})).
Proof.
  intros Hentry. split.
  - intros Hfile. unfold main.getHandler, os_Stat, time.After.
    rewrite Hfile, Hentry. split; intros Hcmp.
    + by rewrite (proj2 (Z.ltb_ge _ _) Hcmp).
    + rewrite (proj2 (Z.ltb_lt _ _) Hcmp).
      destruct (getHandler_locked_miss fp (profileMap_Delete fp w))
        as (r & w' & Hrun & Hcalls & _ & _ & _ & Hres).
      { apply lookup_delete_eq. }
      exists r, w'. split; [done|]. split; [done|].
      simpl in Hres. destruct (driver_PProf fp) as [err|handlers].
      * destruct Hres as [-> ->]. split_and!; [|done..].
        intros _. by rewrite lookup_delete_eq.
      * destruct Hres as [-> ->]. rewrite insert_delete_eq. split_and!; [|done..].
        intros Hptr. rewrite lookup_insert_eq. intros [= <-]. simpl in Hptr. lia.
  - intros s g Hw Hg. pose proof (lookup_lt_Some _ _ _ Hg) as Hlt.
    split; intros Hcmp; cbn [main.run main.step]; rewrite Hg;
      cbn [main.getHandler_step]; rewrite Hw, Hentry; unfold time.After.
    + by rewrite (proj2 (Z.ltb_ge _ _) Hcmp).
    + rewrite (proj2 (Z.ltb_lt _ _) Hcmp). cbn [goroutines world mu cleanup].
      rewrite list_lookup_insert_eq by done. cbn [main.getHandler_step].
      by rewrite list_insert_insert_eq.
Qed.

(** C5, as the code has it: when a call of [getHandler] comes to build,
    the file being there and the cache holding no entry for the key or a
    stale one, and the driver fails, the call returns that error and
    stores nothing. After the call the key has no entry (the stale entry
    has been deleted before the build; without one the table is unchanged)
    and every other key is as before, so the next call for the key runs
    the driver again. *)
Theorem failed_build_stores_nothing
    (fp : string) (info : FileInfo) (err : error) (w : @World Handler) :
  files w !! fp = Some info →
  (∀ ph, profileMap w !! fp = Some ph → time ph < ModTime info) →
  driver_PProf fp = inl err →
  ∃ w',
    getHandler fp w = (inl err, w') ∧
    pprof_calls w' = (pprof_calls w ++ [fp])%list ∧
    profileMap w' = delete fp (profileMap w) ∧
    profileMap w' !! fp = None ∧
    (∀ key, key ≠ fp → profileMap w' !! key = profileMap w !! key) ∧
    (profileMap w !! fp = None → profileMap w' = profileMap w) ∧
    ∃ w'', getHandler fp w' = (inl err, w'') ∧
      pprof_calls w'' = (pprof_calls w' ++ [fp])%list ∧
      profileMap w'' = profileMap w'.
Proof.
  intros Hfile Hstale Hfail.
  assert (∀ v : @World Handler, profileMap v !! fp = None →
            getHandler_locked fp v =
              (inl err, {| profileMap := profileMap v; files := files v;
                           now := now v; next_ptr := S (next_ptr v);
                           pprof_calls := (pprof_calls v ++ [fp])%list |})) as Hlocked.
  { intros v Hv. unfold main.getHandler_locked, main.run_PProf.
    by rewrite Hv, Hfail. }
  assert (∃ w', getHandler fp w = (inl err, w') ∧
            pprof_calls w' = (pprof_calls w ++ [fp])%list ∧
            profileMap w' = delete fp (profileMap w) ∧
            files w' = files w) as (w' & Hget & Hcalls & Hmap & Hfiles).
  { unfold main.getHandler, os_Stat. rewrite Hfile.
    destruct (profileMap w !! fp) as [ph|] eqn:Hentry.
    - unfold time.After. rewrite (proj2 (Z.ltb_lt _ _) (Hstale ph eq_refl)).
      rewrite Hlocked by apply lookup_delete_eq. eauto.
    - rewrite Hlocked by done. eexists. split_and!; try done.
      simpl. by rewrite delete_id. }
  assert (profileMap w' !! fp = None) as Hnone
    by (rewrite Hmap; apply lookup_delete_eq).
  exists w'. split_and!; [done..| | |].
  - intros key Hne. rewrite Hmap. by apply lookup_delete_ne.
  - intros Hcold. rewrite Hmap. by apply delete_id.
  - unfold main.getHandler, os_Stat. rewrite Hfiles, Hfile, Hnone.
    rewrite Hlocked by done. eauto.
Qed.

(** [time.Since] saturates, but far beyond [profileTTL]. *)
Lemma Since_gt_TTL (w : @World Handler) (t : Z) :
  (profileTTL <? time_Since w t) = true ↔ profileTTL < now w - t.
Proof.
  rewrite Z.ltb_lt. unfold time_Since, time.Sub, profileTTL, time.Minute,
    time.maxDuration, time.minDuration.
  destruct (Z.ltb_spec (2 ^ 63 - 1) (now w - t));
    [|destruct (Z.ltb_spec (now w - t) (- 2 ^ 63))]; lia.
Qed.

Lemma sweep_fold_lookup (w : @World Handler) (m0 m : gmap string PProfHandler)
    (key : string) :
  map_fold (sweep_entry w) m0 m !! key =
    match m !! key with
    | Some ph => if profileTTL <? time_Since w (time ph) then None else m0 !! key
    | None => m0 !! key
    end.
Proof.
  apply (map_fold_weak_ind
    (λ r m, r !! key = match m !! key with
                       | Some ph =>
                           if profileTTL <? time_Since w (time ph) then None
                           else m0 !! key
                       | None => m0 !! key
                       end)).
  - by rewrite lookup_empty.
  - intros i x m' r Hfresh IH. unfold sweep_entry.
    destruct (decide (i = key)) as [->|Hne].
    + rewrite lookup_insert_eq, Hfresh in *.
      destruct (profileTTL <? time_Since w (time x)); [apply lookup_delete_eq | done].
    + rewrite lookup_insert_ne by done.
      destruct (profileTTL <? time_Since w (time x)); [|done].
      by rewrite lookup_delete_ne.
Qed.

(** C6: after one sweep with the clock at [now], an entry is in the cache
    exactly when it was there before and its age, [now] minus the time
    recorded at its build, does not exceed the 30 minutes of
    [profileTTL]. *)
Theorem sweep_evicts_by_age (w : @World Handler) (key : string) (ph : PProfHandler) :
  profileTTL = 30 * 60 * 1000000000 ∧
  (profileMap (cleanupProfiles_sweep w) !! key = Some ph ↔
   profileMap w !! key = Some ph ∧ now w - time ph ≤ profileTTL).
Proof.
  split; [reflexivity|]. simpl. rewrite sweep_fold_lookup.
  destruct (profileMap w !! key) as [ph'|] eqn:Hentry; [|split; [done | by intros [? _]]].
  destruct (profileTTL <? time_Since w (time ph')) eqn:Hold.
  - apply Since_gt_TTL in Hold. split; [done|]. intros [[= ->] ?]. lia.
  - assert (¬ profileTTL < now w - time ph') as Hyoung
      by (rewrite <- Since_gt_TTL; congruence).
    split; [intros [= ->]; split; [done | lia] | by intros [? _]].
Qed.

(** A goroutine that runs [getHandler] with nobody in between does what
    the function [getHandler] says. *)
Lemma run_alone_step (fp : string) (p p' : pc) (w w' : @World Handler)
    (m m' : bool) (c : cleanup_pc) (sched : list action) :
  main.getHandler_step driver_PProf fp p w m = Some (p', w', m') →
  run driver_PProf (Run 0 :: sched)
      {| world := w; mu := m; goroutines := [(fp, p)]; cleanup := c |} =
    run driver_PProf sched
      {| world := w'; mu := m'; goroutines := [(fp, p')]; cleanup := c |}.
Proof. intros Hstep. simpl. by rewrite Hstep. Qed.

Lemma getHandler_alone (fp : string) (w : @World Handler) :
  ∃ n, (n ≤ 8)%nat ∧
    run driver_PProf (replicate n (Run 0)) (callers 1 fp w) =
      Some {| world := (getHandler fp w).2; mu := false;
              goroutines := [(fp, pc_Return (getHandler fp w).1)];
              cleanup := cl_Range |}.
Proof.
  assert (profileMap (profileMap_Delete fp w) !! fp = None) as Hdeleted
    by apply lookup_delete_eq.
  unfold main.getHandler, main.getHandler_locked, callers.
  change (replicate 1 (fp, @pc_Stat Handler)) with [(fp, @pc_Stat Handler)].
  destruct (os_Stat fp w) as [err|info] eqn:Hstat.
  { exists 1%nat. split; [lia|]. cbn [replicate].
    erewrite run_alone_step; [done|]. cbn [main.getHandler_step]. by rewrite Hstat. }
  destruct (profileMap w !! fp) as [ph|] eqn:Hentry.
  - destruct (time.After (ModTime info) (time ph)) eqn:Hnewer.
    + rewrite Hdeleted.
      destruct (run_PProf fp (profileMap_Delete fp w)) as [[err|ph'] w'] eqn:Hbuild.
      * exists 7%nat. split; [lia|]. cbn [replicate].
        do 7 (erewrite run_alone_step;
              [|cbn [main.getHandler_step];
                rewrite ?Hstat, ?Hentry, ?Hnewer, ?Hdeleted, ?Hbuild; reflexivity]).
        done.
      * exists 8%nat. split; [lia|]. cbn [replicate].
        do 8 (erewrite run_alone_step;
              [|cbn [main.getHandler_step];
                rewrite ?Hstat, ?Hentry, ?Hnewer, ?Hdeleted, ?Hbuild; reflexivity]).
        done.
    + exists 2%nat. split; [lia|]. cbn [replicate].
      do 2 (erewrite run_alone_step;
            [|cbn [main.getHandler_step];
              rewrite ?Hstat, ?Hentry, ?Hnewer; reflexivity]).
      done.
  - destruct (run_PProf fp w) as [[err|ph'] w'] eqn:Hbuild.
    + exists 6%nat. split; [lia|]. cbn [replicate].
      do 6 (erewrite run_alone_step;
            [|cbn [main.getHandler_step];
              rewrite ?Hstat, ?Hentry, ?Hbuild; reflexivity]).
      done.
    + exists 7%nat. split; [lia|]. cbn [replicate].
      do 7 (erewrite run_alone_step;
            [|cbn [main.getHandler_step];
              rewrite ?Hstat, ?Hentry, ?Hbuild; reflexivity]).
      done.
Qed.

End cache_facts.

(** ** The route and the cache *)

Section route_cache_facts.

Context {Handler : Type}.
Variable driver_PProf : string → error + gmap string Handler.
Variable filepath_Join : string → string → string.
Variable repoPath : string.

#[local] Abbreviation route := (route driver_PProf filepath_Join repoPath).
#[local] Abbreviation getHandler := (getHandler driver_PProf).

(** C7: a request path without the marker that is an existing regular
    file goes through [getHandler] on that file first. With an entry in
    the cache that is not older than the file, nothing is built. With no
    entry, or one older than the file, the driver is run once on the
    file: when it succeeds the new entry is stored under the file's path,
    when it fails the response is the internal error, no redirect is
    written and the path is left without entry. Unless the build has
    failed, the response is the redirect to the path with [/ui/]
    appended, written before anything else. *)
Theorem plain_file_builds_then_redirects
    (path : string) (info : FileInfo) (w : @World Handler) :
  (∀ j, ¬ strings.occurs_at "/ui" j path) →
  os_Stat (filepath_Join repoPath path) w = inr info →
  IsDir info = false →
  let fp := filepath_Join repoPath path in
  let redirect := [Redirect StatusFound (path ++ "/ui/"); fileServer_ServeHTTP] in
  (∀ ph, profileMap w !! fp = Some ph → ModTime info ≤ time ph →
     route path w = (redirect, w)) ∧
  ((∀ ph, profileMap w !! fp = Some ph → time ph < ModTime info) →
   ∃ w',
     pprof_calls w' = (pprof_calls w ++ [fp])%list ∧
     (∀ key, key ≠ fp → profileMap w' !! key = profileMap w !! key) ∧
     files w' = files w ∧ now w' = now w ∧
     match driver_PProf fp with
     | inr handlers =>
         route path w = (redirect, w') ∧
         profileMap w' !! fp =
           Some {| ptr := next_ptr w; args_Handlers := HTTPServer handlers;
                   time := now w |}
     | inl err =>
         route path w = ([AbortWithError StatusInternalServerError err], w') ∧
         profileMap w' !! fp = None
     end).
Proof.
  intros Hno Hstat Hfile fp redirect.
  assert (files w !! fp = Some info) as Hinfo.
  { unfold os_Stat in Hstat. fold fp in Hstat.
    destruct (files w !! fp); by simplify_eq. }
  rewrite (route_no_marker _ _ _ _ _ Hno), Hstat, Hfile.
  unfold Outcome.build_then_redirect. fold fp. split.
  - intros ph Hentry Hfresh.
    by rewrite (getHandler_hit driver_PProf fp info ph w).
  - intros Hstale.
    destruct (getHandler_builds driver_PProf fp info w Hinfo Hstale)
      as (r & w' & -> & Hcalls & Hfiles & Hnow & _ & Hkeys & Hres).
    exists w'. split_and!; try done.
    destruct (driver_PProf fp) as [err|handlers]; by destruct Hres as [-> ->].
Qed.

End route_cache_facts.

(** ** The mutex, whatever the goroutines ask for *)

Section locking_facts.

Context {Handler : Type}.
Variable driver_PProf : string → error + gmap string Handler.

#[local] Abbreviation step := (step driver_PProf).
#[local] Abbreviation run := (run driver_PProf).
#[local] Abbreviation getHandler_step := (getHandler_step driver_PProf).

Lemma step_lock_protocol (fp : string) (p p' : pc) (w w' : @World Handler)
    (m m' : bool) :
  getHandler_step fp p w m = Some (p', w', m') →
  lock_protocol p p' m m'.
Proof.
  destruct p; simpl; intros Hstep;
    repeat (match type of Hstep with
            | context [match ?x with _ => _ end] => destruct x eqn:?
            end);
    simplify_eq; unfold lock_protocol; simpl; naive_solver.
Qed.

Lemma lock_inv_update (s : @System Handler) (g : nat) (fp : string) (p p' : pc)
    (w' : World) (mu' : bool) (c' : cleanup_pc) :
  lock_inv s →
  goroutines s !! g = Some (fp, p) →
  lock_protocol p p' (mu s) mu' →
  lock_inv {| world := w'; mu := mu';
              goroutines := <[g := (fp, p')]> (goroutines s); cleanup := c' |}.
Proof.
  intros Hinv Hg Hlock.
  pose proof (lookup_lt_Some _ _ _ Hg) as Hlt.
  assert (∀ g' k q, <[g := (fp, p')]> (goroutines s) !! g' = Some (k, q) →
            (g' = g ∧ k = fp ∧ q = p') ∨
            (g' ≠ g ∧ goroutines s !! g' = Some (k, q))) as Hlook.
  { intros g' k q [(-> & [= <- <-] & _) | [? ?]]%list_lookup_insert_Some; eauto. }
  assert (in_critical_section p' = true → ∀ g' k q,
            g' ≠ g → goroutines s !! g' = Some (k, q) →
            in_critical_section q = false) as Halone.
  { intros Hin g' k q Hne Hg'.
    destruct (in_critical_section q) eqn:Hq; [|done]. destruct Hne.
    destruct Hlock as [[Heq _] | [(_ & _ & Hmu & _) | (_ & ? & _)]];
      [| |congruence].
    - rewrite <- Heq in Hin. symmetry.
      apply (lock_mutex _ Hinv _ _ _ _ _ _ Hg Hg' Hin Hq).
    - pose proof (lock_free _ Hinv Hmu _ _ _ Hg'). congruence. }
  split; simpl.
  - intros -> g' k q [(-> & -> & ->) | [Hne Hg']]%Hlook.
    + destruct Hlock as [[Heq Hmu] | [(_ & _ & _ & ?) | (_ & ? & _)]]; [|done..].
      rewrite <- Heq. symmetry in Hmu. apply (lock_free _ Hinv Hmu _ _ _ Hg).
    + destruct Hlock as [[Heq Hmu] | [(_ & _ & _ & ?) | (Hin & _ & _)]]; [|done|].
      * symmetry in Hmu. apply (lock_free _ Hinv Hmu _ _ _ Hg').
      * destruct (in_critical_section q) eqn:Hq; [|done]. destruct Hne. symmetry.
        apply (lock_mutex _ Hinv _ _ _ _ _ _ Hg Hg' Hin Hq).
  - intros ->.
    destruct Hlock as [[Heq Hmu] | [(_ & Hin & _ & _) | (_ & _ & ?)]]; [| |done].
    + symmetry in Hmu.
      destruct (lock_held _ Hinv Hmu) as (g' & k & q & Hg' & Hq).
      destruct (decide (g' = g)) as [->|Hne].
      * exists g, fp, p'. rewrite list_lookup_insert_eq by done.
        split; [done|]. rewrite <- Heq. by simplify_eq.
      * exists g', k, q. by rewrite list_lookup_insert_ne.
    + exists g, fp, p'. by rewrite list_lookup_insert_eq.
  - intros g1 g2 k1 k2 q1 q2
      [(-> & -> & ->) | [Hne1 Hg1]]%Hlook [(-> & -> & ->) | [Hne2 Hg2]]%Hlook
      Hq1 Hq2; [done| | |].
    + pose proof (Halone Hq1 _ _ _ Hne2 Hg2). congruence.
    + pose proof (Halone Hq2 _ _ _ Hne1 Hg1). congruence.
    + apply (lock_mutex _ Hinv _ _ _ _ _ _ Hg1 Hg2 Hq1 Hq2).
Qed.

(** What does not touch the goroutines does not touch the discipline. *)
Lemma lock_inv_env (s : @System Handler) (w' : World) (c' : cleanup_pc) :
  lock_inv s →
  lock_inv {| world := w'; mu := mu s; goroutines := goroutines s;
              cleanup := c' |}.
Proof. intros Hinv. by destruct Hinv. Qed.

Lemma lock_inv_step (a : action) (s s' : @System Handler) :
  lock_inv s → step a s = Some s' → lock_inv s'.
Proof.
  intros Hinv Hstep. destruct a as [g|d|k|k|]; simpl in Hstep.
  - destruct (goroutines s !! g) as [[k p]|] eqn:Hg; [|done].
    destruct (getHandler_step k p (world s) (mu s)) as [[[p' w'] mu']|] eqn:Hp;
      [|done].
    injection Hstep as <-. apply (lock_inv_update s g k p); [done..|].
    by apply (step_lock_protocol k p p' (world s) w').
  - destruct (0 <=? d); [|done]. injection Hstep as <-. by apply lock_inv_env.
  - injection Hstep as <-. by apply lock_inv_env.
  - destruct (Range_visit k (cleanup s) (world s)); [|done].
    injection Hstep as <-. by apply lock_inv_env.
  - destruct (cleanupProfiles_step (cleanup s) (world s)) as [[c' w']|]; [|done].
    injection Hstep as <-. by apply lock_inv_env.
Qed.

Lemma lock_inv_run (sched : list action) (s s' : @System Handler) :
  lock_inv s → run sched s = Some s' → lock_inv s'.
Proof.
  revert s. induction sched as [|a sched IH]; intros s Hinv Hrun; simpl in Hrun.
  - by injection Hrun as <-.
  - destruct (step a s) as [s1|] eqn:Hstep; [|done]. apply (IH s1); [|done].
    by apply (lock_inv_step a s).
Qed.

Lemma lock_inv_entering (c : cleanup_pc) (fps : list string) (w : @World Handler) :
  lock_inv (entering c fps w).
Proof.
  assert (∀ g k p, goroutines (entering c fps w) !! g = Some (k, p) → p = pc_Stat)
    as Hstat.
  { intros g k p. simpl. rewrite list_lookup_fmap.
    destruct (fps !! g); simpl; [|done]. by intros [= <- <-]. }
  split; simpl; [|done|].
  - intros _ g k p Hg. by rewrite (Hstat g k p Hg).
  - intros g1 g2 k1 k2 p1 p2 Hg1 _. by rewrite (Hstat g1 k1 p1 Hg1).
Qed.

Lemma callers_entering (N : nat) (fp : string) (w : @World Handler) :
  callers N fp w = entering cl_Range (replicate N fp) w.
Proof. unfold callers, entering. by rewrite fmap_replicate. Qed.

Lemma work_left_entering (c : cleanup_pc) (fps : list string) (w : @World Handler) :
  work_left (entering c fps w) = (8 * length fps)%nat.
Proof.
  unfold work_left, entering. cbn [goroutines].
  induction fps as [|fp fps IH]; [done|].
  rewrite fmap_cons. cbn [map sum_list snd steps_left]. rewrite IH.
  unfold id. cbn [length]. lia.
Qed.

(** A goroutine that has not returned can run its next statement, unless
    it waits for the mutex. *)
Lemma step_defined (s : @System Handler) (g : nat) (k : string) (p : pc) :
  goroutines s !! g = Some (k, p) →
  steps_left p ≠ 0%nat →
  (p = pc_Lock → mu s = false) →
  ∃ s', step (Run g) s = Some s'.
Proof.
  intros Hg Hleft Hlock. simpl. rewrite Hg.
  destruct p; simpl in *; try done; eauto.
  - destruct (os_Stat k (world s)); eauto.
  - destruct (profileMap (world s) !! k); [destruct (time.After _ _)|]; eauto.
  - rewrite Hlock by done. eauto.
  - destruct (profileMap (world s) !! k); eauto.
  - destruct (run_PProf driver_PProf k (world s)) as [[err|ph] w']; eauto.
Qed.

(** Every statement brings its goroutine closer to the return. *)
Lemma getHandler_step_decreases (k : string) (p p' : pc) (w w' : World)
    (m m' : bool) :
  getHandler_step k p w m = Some (p', w', m') →
  (steps_left p' < steps_left p)%nat.
Proof.
  destruct p; simpl; intros Hstep;
    repeat (match type of Hstep with
            | context [match ?x with _ => _ end] => destruct x
            end);
    simplify_eq; simpl; lia.
Qed.

(** [getHandler] leaves the clock and the files alone. *)
Lemma getHandler_step_env (k : string) (p p' : pc) (w w' : World) (m m' : bool) :
  getHandler_step k p w m = Some (p', w', m') →
  now w' = now w ∧ files w' = files w.
Proof.
  destruct p; simpl; intros Hstep;
    repeat (match type of Hstep with
            | context [match ?x with _ => _ end] => destruct x eqn:?
            end);
    simplify_eq; try done.
  all: unfold run_PProf in *; destruct (driver_PProf k); by simplify_eq.
Qed.

Lemma sum_list_insert_lt {A : Type} (f : A → nat) (l : list A) (i : nat) (x y : A) :
  l !! i = Some x → (f y < f x)%nat →
  (sum_list (map f (<[i := y]> l)) < sum_list (map f l))%nat.
Proof.
  revert i. induction l as [|z l IH]; intros [|i] Hi Hlt; simplify_eq/=; [lia|].
  specialize (IH i Hi Hlt). lia.
Qed.

Lemma sum_list_insert_eq {A : Type} (f : A → nat) (l : list A) (i : nat) (x y : A) :
  l !! i = Some x →
  (sum_list (map f (<[i := y]> l)) + f x = sum_list (map f l) + f y)%nat.
Proof.
  revert i. induction l as [|z l IH]; intros [|i] Hi; simplify_eq/=; [lia|].
  specialize (IH i Hi). lia.
Qed.

Lemma step_Run_decreases (g : nat) (s s' : @System Handler) :
  step (Run g) s = Some s' → (work_left s' < work_left s)%nat.
Proof.
  simpl. destruct (goroutines s !! g) as [[k p]|] eqn:Hg; [|done].
  destruct (getHandler_step k p (world s) (mu s)) as [[[p' w'] mu']|] eqn:Hrun;
    [|done].
  intros [= <-]. unfold work_left. simpl.
  apply (sum_list_insert_lt (λ g, steps_left g.2) _ _ (k, p)); [done|]. simpl.
  by apply (getHandler_step_decreases k p p' (world s) w' (mu s) mu').
Qed.

(** What is not a statement of a caller leaves the callers where they
    are. *)
Lemma step_env_goroutines (a : action) (s s' : @System Handler) :
  (∀ g, a ≠ Run g) → step a s = Some s' →
  goroutines s' = goroutines s ∧ mu s' = mu s.
Proof.
  intros Hne Hstep. destruct a as [g|d|k|k|]; simpl in Hstep.
  - by destruct (Hne g).
  - destruct (0 <=? d); [|done]. by injection Hstep as <-.
  - by injection Hstep as <-.
  - destruct (Range_visit k (cleanup s) (world s)); [|done].
    by injection Hstep as <-.
  - destruct (cleanupProfiles_step (cleanup s) (world s)) as [[c' w']|]; [|done].
    by injection Hstep as <-.
Qed.

Lemma step_length (a : action) (s s' : @System Handler) :
  step a s = Some s' → length (goroutines s') = length (goroutines s).
Proof.
  intros Hstep.
  assert ((∃ g, a = Run g) ∨ ∀ g, a ≠ Run g) as [[g ->]|Hne]
    by (destruct a; eauto).
  - simpl in Hstep. destruct (goroutines s !! g) as [[k p]|]; [|done].
    destruct (getHandler_step k p (world s) (mu s)) as [[[p' w'] mu']|]; [|done].
    injection Hstep as <-. simpl. apply length_insert.
  - by destruct (step_env_goroutines a s s' Hne Hstep) as [-> _].
Qed.

Lemma run_length (sched : list action) (s s' : @System Handler) :
  run sched s = Some s' → length (goroutines s') = length (goroutines s).
Proof.
  revert s. induction sched as [|a sched IH]; intros s Hrun; simpl in Hrun.
  - by injection Hrun as <-.
  - destruct (step a s) as [s1|] eqn:Hstep; [|done].
    rewrite (IH s1 Hrun). by apply (step_length a).
Qed.

(** The clock does not go back. *)
Lemma step_clock (a : action) (s s' : @System Handler) :
  step a s = Some s' → now (world s) ≤ now (world s').
Proof.
  intros Hstep. destruct a as [g|d|k|k|]; simpl in Hstep.
  - destruct (goroutines s !! g) as [[k p]|] eqn:Hg; [|done].
    destruct (getHandler_step k p (world s) (mu s)) as [[[p' w'] mu']|] eqn:Hp;
      [|done].
    injection Hstep as <-. simpl.
    destruct (getHandler_step_env _ _ _ _ _ _ _ Hp) as [-> _]. lia.
  - destruct (Z.leb_spec 0 d); [|done]. injection Hstep as <-. simpl. lia.
  - injection Hstep as <-. simpl. lia.
  - destruct (Range_visit k (cleanup s) (world s)); [|done].
    injection Hstep as <-. simpl. lia.
  - destruct (cleanup s) as [|key ph|key]; simpl in Hstep; [done| |].
    + destruct (profileTTL <? _); injection Hstep as <-; simpl; lia.
    + injection Hstep as <-. simpl. lia.
Qed.

Lemma run_clock (sched : list action) (s s' : @System Handler) :
  run sched s = Some s' → now (world s) ≤ now (world s').
Proof.
  revert s. induction sched as [|a sched IH]; intros s Hrun; simpl in Hrun.
  - injection Hrun as <-. lia.
  - destruct (step a s) as [s1|] eqn:Hstep; [|done].
    apply step_clock in Hstep. specialize (IH s1 Hrun). lia.
Qed.

Lemma work_left_0 (s : @System Handler) (g : nat) (k : string) (p : pc) :
  work_left s = 0%nat →
  goroutines s !! g = Some (k, p) →
  ∃ r, p = pc_Return r.
Proof.
  unfold work_left. revert g.
  induction (goroutines s) as [|[k' q] l IH]; intros [|g] Hsum Hg; simplify_eq/=.
  - destruct p; simpl in Hsum; try lia. eauto.
  - apply (IH g); [lia | done].
Qed.

Lemma work_left_pos (s : @System Handler) :
  work_left s ≠ 0%nat →
  ∃ g k p, goroutines s !! g = Some (k, p) ∧ steps_left p ≠ 0%nat.
Proof.
  unfold work_left. induction (goroutines s) as [|[k p] l IH]; simpl; [done|].
  intros Hsum. destruct (decide (steps_left p = 0%nat)) as [Hp|Hp].
  - destruct IH as (g & k' & q & Hg & Hq); [lia|]. by exists (S g), k', q.
  - by exists 0%nat, k, p.
Qed.

Lemma builds_done_all (s : @System Handler) :
  work_left s = 0%nat → builds_done s = length (goroutines s).
Proof.
  unfold work_left, builds_done.
  induction (goroutines s) as [|[k p] l IH]; simpl; [done|].
  intros Hsum. rewrite IH by lia. destruct p; simpl in *; lia.
Qed.

Lemma run_app (sched1 sched2 : list action) (s : @System Handler) :
  run (sched1 ++ sched2) s =
    match run sched1 s with
    | Some s1 => run sched2 s1
    | None => None
    end.
Proof.
  revert s. induction sched1 as [|a sched1 IH]; intros s; simpl; [done|].
  by destruct (step a s).
Qed.

Lemma run_bounded (sched : list action) (s s' : @System Handler) :
  run sched s = Some s' →
  (statements_run sched + work_left s' ≤ work_left s)%nat.
Proof.
  revert s. induction sched as [|a sched IH]; intros s Hrun; simpl in Hrun.
  - injection Hrun as <-. simpl. lia.
  - destruct (step a s) as [s1|] eqn:Hstep; [|done].
    specialize (IH s1 Hrun).
    assert ((∃ g, a = Run g) ∨ ∀ g, a ≠ Run g) as [[g ->]|Hne]
      by (destruct a; eauto).
    + apply step_Run_decreases in Hstep. simpl. lia.
    + destruct (step_env_goroutines a s s1 Hne Hstep) as [Hg _].
      unfold work_left in *. rewrite <- Hg. destruct a; simpl; try lia.
      by destruct (Hne g).
Qed.

(** No deadlock: while a goroutine is still inside [getHandler], some
    goroutine can run its next statement. *)
Lemma lock_progress (s : @System Handler) :
  lock_inv s → work_left s ≠ 0%nat → ∃ g s', step (Run g) s = Some s'.
Proof.
  intros Hinv (g & k & p & Hg & Hp)%work_left_pos.
  destruct (mu s) eqn:Hmu.
  - destruct (lock_held _ Hinv Hmu) as (g' & k' & q & Hg' & Hq).
    exists g'. apply (step_defined s g' k' q); [done| |]; by destruct q.
  - exists g. by apply (step_defined s g k p).
Qed.

(** From wherever they are, the goroutines can all run to their
    return. *)
Lemma run_completes (s : @System Handler) :
  lock_inv s →
  ∃ rest s', run rest s = Some s' ∧ work_left s' = 0%nat ∧
    statements_run rest = length rest.
Proof.
  remember (work_left s) as n eqn:Hn. revert s Hn.
  induction (lt_wf n) as [n _ IH]. intros s -> Hinv.
  destruct (decide (work_left s = 0%nat)) as [Hdone|Hleft].
  - by exists [], s.
  - destruct (lock_progress s Hinv Hleft) as (g & s1 & Hstep).
    destruct (IH (work_left s1) (step_Run_decreases g s s1 Hstep) s1 eq_refl)
      as (rest & s' & Hrun & Hdone & Hlen).
    { by apply (lock_inv_step (Run g) s). }
    exists (Run g :: rest), s'. split_and!; [|done|simpl; by rewrite Hlen].
    change (run (Run g :: rest) s)
      with (match step (Run g) s with Some s1 => run rest s1 | None => None end).
    by rewrite Hstep.
Qed.

End locking_facts.

(** ** Callers of one key, interleaved, when the driver succeeds *)

Section single_flight_facts.

Context {Handler : Type}.
Variable driver_PProf : string → error + gmap string Handler.
Variable fp : string.
Variable info : FileInfo.
Variable handlers : gmap string Handler.
Variable calls0 : list string.
Variable t0 : Z.
Hypothesis driver_ok : driver_PProf fp = inr handlers.

#[local] Abbreviation inv := (@single_flight_inv Handler fp info handlers calls0 t0).
#[local] Abbreviation pc_ok := (@pc_inv Handler fp info handlers calls0 t0).
#[local] Abbreviation entry_ok := (@entry_ok Handler info handlers t0).
#[local] Abbreviation cleanup_ok := (@cleanup_inv Handler fp t0).
#[local] Abbreviation step := (step driver_PProf).
#[local] Abbreviation run := (run driver_PProf).
#[local] Abbreviation getHandler_step := (getHandler_step driver_PProf).

Lemma inv_entering (c : cleanup_pc) (N : nat) (w : @World Handler) :
  profileMap w !! fp = None →
  files w !! fp = Some info →
  ModTime info ≤ now w →
  pprof_calls w = calls0 →
  now w = t0 →
  cleanup_key c ≠ Some fp →
  inv N (entering c (replicate N fp) w).
Proof.
  intros Hcold Hfile Hclock Hcalls Hnow Hc.
  assert (∀ g k p, ((λ k, (k, @pc_Stat Handler)) <$> replicate N fp) !! g = Some (k, p) →
            k = fp ∧ p = pc_Stat) as Hrep.
  { intros g k p. rewrite fmap_replicate.
    intros [[= <- <-] _]%lookup_replicate. done. }
  split; simpl; try done.
  - by rewrite length_fmap, length_replicate.
  - intros g k p Hg. by destruct (Hrep _ _ _ Hg).
  - lia.
  - apply lock_inv_entering.
  - by rewrite Hcold.
  - by left.
  - intros g k p Hg. by destruct (Hrep _ _ _ Hg) as [_ ->].
  - destruct c as [|key ph|key]; simpl in *; [done| |]; congruence.
Qed.

(** Goroutines outside the critical section do not notice a build. *)
Lemma pc_ok_outside (w w' : @World Handler) (p : pc) :
  in_critical_section p = false →
  (∀ ph, profileMap w !! fp = Some ph → profileMap w' !! fp = Some ph) →
  pc_ok w p → pc_ok w' p.
Proof.
  intros Hout Hmap. destruct p; simpl in *; try done.
  intros (ph & -> & Hph). eauto.
Qed.

(** Nor does any goroutine notice what leaves the entry of [fp] and the
    log as they are. *)
Lemma pc_ok_env (w w' : @World Handler) (p : pc) :
  profileMap w' !! fp = profileMap w !! fp →
  pprof_calls w' = pprof_calls w →
  pc_ok w p → pc_ok w' p.
Proof. intros Hmap Hcalls. destruct p; simpl; by rewrite ?Hmap, ?Hcalls. Qed.

Lemma inv_update (N : nat) (s : @System Handler) (g : nat) (p p' : pc)
    (w' : World) (mu' : bool) :
  inv N s →
  goroutines s !! g = Some (fp, p) →
  files w' !! fp = Some info →
  now w' = now (world s) →
  pc_ok w' p' →
  lock_protocol p p' (mu s) mu' →
  (∀ ph, profileMap w' !! fp = Some ph →
     entry_ok ph ∧ pprof_calls w' = (calls0 ++ [fp])%list) →
  (profileMap w' !! fp = None →
     pprof_calls w' = calls0 ∨ (∃ ph, p' = pc_Store ph) ∨
     ∃ g' k ph, g' ≠ g ∧ goroutines s !! g' = Some (k, pc_Store ph)) →
  (∀ g' k q, g' ≠ g → goroutines s !! g' = Some (k, q) → pc_ok w' q) →
  inv N {| world := w'; mu := mu'; goroutines := <[g := (fp, p')]> (goroutines s);
           cleanup := cleanup s |}.
Proof.
  intros Hinv Hg Hfile Hclock Hp' Hlock Hentry Hunbuilt Hothers.
  assert (∀ g' k q, <[g := (fp, p')]> (goroutines s) !! g' = Some (k, q) →
            (g' = g ∧ k = fp ∧ q = p') ∨
            (g' ≠ g ∧ goroutines s !! g' = Some (k, q))) as Hlook.
  { intros g' k q [(-> & [= <- <-] & _) | [? ?]]%list_lookup_insert_Some; eauto. }
  pose proof (lookup_lt_Some _ _ _ Hg) as Hlt.
  split; simpl.
  - rewrite length_insert. apply (inv_count _ _ _ _ _ _ _ Hinv).
  - intros g' k q [(_ & -> & _) | [_ Hg']]%Hlook; [done|].
    apply (inv_args _ _ _ _ _ _ _ Hinv _ _ _ Hg').
  - done.
  - rewrite Hclock. apply (inv_clock _ _ _ _ _ _ _ Hinv).
  - rewrite Hclock. apply (inv_start _ _ _ _ _ _ _ Hinv).
  - apply (lock_inv_update s g fp p); [|done..].
    apply (inv_lock _ _ _ _ _ _ _ Hinv).
  - done.
  - intros Hnone. destruct (Hunbuilt Hnone) as [?|[[ph ->]|(g' & k & ph & Hne & Hg')]].
    + by left.
    + right. exists g, fp, ph. by rewrite list_lookup_insert_eq.
    + right. exists g', k, ph. by rewrite list_lookup_insert_ne.
  - intros g' k q [(-> & -> & ->) | [Hne Hg']]%Hlook; [done|].
    by apply (Hothers g' k q).
  - apply (inv_cleanup _ _ _ _ _ _ _ Hinv).
Qed.

(** A statement that leaves the world as it is. *)
Lemma inv_update_quiet (N : nat) (s : @System Handler) (g : nat) (p p' : pc)
    (mu' : bool) :
  inv N s →
  goroutines s !! g = Some (fp, p) →
  (∀ ph, p ≠ pc_Store ph) →
  pc_ok (world s) p' →
  lock_protocol p p' (mu s) mu' →
  inv N {| world := world s; mu := mu';
           goroutines := <[g := (fp, p')]> (goroutines s); cleanup := cleanup s |}.
Proof.
  intros Hinv Hg Hp Hp' Hlock. apply (inv_update N s g p p'); try done.
  - apply (inv_file _ _ _ _ _ _ _ Hinv).
  - apply (inv_entry _ _ _ _ _ _ _ Hinv).
  - intros Hnone. destruct (inv_unbuilt _ _ _ _ _ _ _ Hinv Hnone)
      as [?|(g' & k & ph & Hg')]; [by left|].
    right; right. exists g', k, ph. split; [|done].
    intros ->. rewrite Hg in Hg'. simplify_eq. by destruct (Hp ph).
  - intros g' k q _ Hg'. apply (inv_pc _ _ _ _ _ _ _ Hinv _ _ _ Hg').
Qed.

(** What happens beside the callers and leaves the file, the entry of
    [fp] and the log as they are. *)
Lemma inv_env (N : nat) (s : @System Handler) (w' : World) (c' : cleanup_pc) :
  inv N s →
  files w' !! fp = Some info →
  now (world s) ≤ now w' →
  profileMap w' !! fp = profileMap (world s) !! fp →
  pprof_calls w' = pprof_calls (world s) →
  cleanup_ok c' →
  inv N {| world := w'; mu := mu s; goroutines := goroutines s; cleanup := c' |}.
Proof.
  intros Hinv Hfile Hclock Hmap Hcalls Hc. split; simpl.
  - apply (inv_count _ _ _ _ _ _ _ Hinv).
  - apply (inv_args _ _ _ _ _ _ _ Hinv).
  - done.
  - pose proof (inv_clock _ _ _ _ _ _ _ Hinv). lia.
  - pose proof (inv_start _ _ _ _ _ _ _ Hinv). lia.
  - apply lock_inv_env, (inv_lock _ _ _ _ _ _ _ Hinv).
  - rewrite Hmap, Hcalls. apply (inv_entry _ _ _ _ _ _ _ Hinv).
  - rewrite Hmap, Hcalls. apply (inv_unbuilt _ _ _ _ _ _ _ Hinv).
  - intros g k p Hg. apply (pc_ok_env (world s)); [done..|].
    apply (inv_pc _ _ _ _ _ _ _ Hinv _ _ _ Hg).
  - done.
Qed.

Lemma inv_step_Run (N : nat) (s : @System Handler) (g : nat) (p p' : pc)
    (w' : World) (mu' : bool) :
  inv N s →
  goroutines s !! g = Some (fp, p) →
  getHandler_step fp p (world s) (mu s) = Some (p', w', mu') →
  inv N {| world := w'; mu := mu'; goroutines := <[g := (fp, p')]> (goroutines s);
           cleanup := cleanup s |}.
Proof.
  intros Hinv Hg Hstep.
  pose proof (inv_pc _ _ _ _ _ _ _ Hinv _ _ _ Hg) as Hp.
  pose proof (inv_file _ _ _ _ _ _ _ Hinv) as Hfile.
  pose proof (inv_clock _ _ _ _ _ _ _ Hinv) as Hclock.
  pose proof (inv_start _ _ _ _ _ _ _ Hinv) as Hstart.
  pose proof (lock_mutex _ (inv_lock _ _ _ _ _ _ _ Hinv)) as Hmutex.
  destruct p; simpl in Hstep, Hp.
  - (* os.Stat *)
    unfold os_Stat in Hstep. rewrite Hfile in Hstep. simplify_eq.
    apply (inv_update_quiet N s g pc_Stat); try done. by left.
  - (* the first Load *)
    subst info0.
    destruct (profileMap (world s) !! fp) as [ph|] eqn:Hentry.
    + destruct (inv_entry _ _ _ _ _ _ _ Hinv _ Hentry) as [[Hfresh _] _].
      unfold time.After in Hstep.
      rewrite (proj2 (Z.ltb_ge _ _) Hfresh) in Hstep. simplify_eq.
      apply (inv_update_quiet N s g (pc_Load info)); try done.
      * simpl. eauto.
      * by left.
    + simplify_eq. apply (inv_update_quiet N s g (pc_Load info)); try done.
      by left.
  - (* Delete *)
    done.
  - (* Lock *)
    destruct (mu s) eqn:Hmu; [done|]. simplify_eq.
    apply (inv_update_quiet N s g pc_Lock); try done.
    right; left. by rewrite Hmu.
  - (* the second Load *)
    destruct (profileMap (world s) !! fp) as [ph|] eqn:Hentry; simplify_eq.
    + apply (inv_update_quiet N s g pc_Recheck); try done.
      * simpl. eauto.
      * by left.
    + apply (inv_update_quiet N s g pc_Recheck); try done; [|by left].
      simpl. split; [done|].
      destruct (inv_unbuilt _ _ _ _ _ _ _ Hinv Hentry) as [?|(g' & k & ph & Hg')]; [done|].
      assert (g = g') as <- by (by apply (Hmutex _ _ _ _ _ _ Hg Hg')).
      rewrite Hg in Hg'. by simplify_eq.
  - (* driver.PProf *)
    destruct Hp as [Hnone Hcalls].
    unfold main.run_PProf in Hstep. rewrite driver_ok in Hstep.
    injection Hstep as <- <- <-.
    apply (inv_update N s g pc_PProf); simpl; try done.
    + by rewrite Hcalls.
    + by left.
    + by rewrite Hnone.
    + intros _. right; left. eauto.
    + intros g' k q Hne Hg'.
      apply (pc_ok_outside (world s)); [|done|apply (inv_pc _ _ _ _ _ _ _ Hinv _ _ _ Hg')].
      destruct (in_critical_section q) eqn:Hq; [|done]. destruct Hne. symmetry.
      by apply (Hmutex _ _ _ _ _ _ Hg Hg').
  - (* Store *)
    destruct Hp as (Hnone & Hcalls & Hfresh). injection Hstep as <- <- <-.
    apply (inv_update N s g (pc_Store ph)); simpl; try done.
    + exists ph. by rewrite lookup_insert_eq.
    + by left.
    + intros ph'. rewrite lookup_insert_eq. by intros [= <-].
    + by rewrite lookup_insert_eq.
    + intros g' k q Hne Hg'.
      apply (pc_ok_outside (world s)); [|by rewrite Hnone
                                        |apply (inv_pc _ _ _ _ _ _ _ Hinv _ _ _ Hg')].
      destruct (in_critical_section q) eqn:Hq; [|done]. destruct Hne. symmetry.
      by apply (Hmutex _ _ _ _ _ _ Hg Hg').
  - (* Unlock *)
    simplify_eq. apply (inv_update_quiet N s g (pc_Unlock r)); try done.
    right; right. done.
  - (* back in the caller *)
    done.
Qed.

(** The invariant holds on as long as the file is not written and the
    clock is within [profileTTL] of the callers' entry: then no entry that
    the callers store is old enough for [cleanupProfiles] to delete it. *)
Lemma inv_step (N : nat) (a : action) (s s' : @System Handler) :
  inv N s →
  a ≠ WriteFile fp →
  now (world s) ≤ t0 + profileTTL →
  step a s = Some s' →
  inv N s'.
Proof.
  intros Hinv Hquiet Hdeadline Hstep.
  pose proof (inv_file _ _ _ _ _ _ _ Hinv) as Hfile.
  destruct a as [g|d|k|k|]; simpl in Hstep.
  - destruct (goroutines s !! g) as [[k p]|] eqn:Hg; [|done].
    pose proof (inv_args _ _ _ _ _ _ _ Hinv _ _ _ Hg) as ->.
    destruct (getHandler_step fp p (world s) (mu s)) as [[[p' w'] mu']|] eqn:Hrun;
      [|done].
    injection Hstep as <-. by apply (inv_step_Run N s g p).
  - destruct (Z.leb_spec 0 d) as [Hd|]; [|done]. injection Hstep as <-.
    apply (inv_env N s _ _ Hinv); simpl; [done | lia | done | done |].
    apply (inv_cleanup _ _ _ _ _ _ _ Hinv).
  - injection Hstep as <-. apply (inv_env N s _ _ Hinv); simpl; [|lia | done | done |].
    + rewrite lookup_insert_ne; [done|]. intros ->. by destruct Hquiet.
    + apply (inv_cleanup _ _ _ _ _ _ _ Hinv).
  - unfold Range_visit in Hstep.
    destruct (cleanup s) eqn:Hc; try done.
    destruct (profileMap (world s) !! k) as [ph|] eqn:Hentry; [|done].
    injection Hstep as <-. apply (inv_env N s _ _ Hinv); simpl; [done | lia | done | done |].
    intros ->. by destruct (inv_entry _ _ _ _ _ _ _ Hinv _ Hentry) as [(_ & ? & _) _].
  - pose proof (inv_cleanup _ _ _ _ _ _ _ Hinv) as Hc.
    destruct (cleanup s) as [|key ph|key]; simpl in Hstep, Hc; [done| |].
    + destruct (profileTTL <? time_Since (world s) (time ph)) eqn:Hold;
        injection Hstep as <-;
        (apply (inv_env N s _ _ Hinv); simpl; [done | lia | done | done |]); [|done].
      intros ->. apply Since_gt_TTL in Hold. specialize (Hc eq_refl). lia.
    + injection Hstep as <-. apply (inv_env N s _ _ Hinv); simpl; [done | lia | | done | done].
      by rewrite lookup_delete_ne.
Qed.

Lemma inv_run (N : nat) (sched : list action) (s s' : @System Handler) :
  inv N s →
  no_writes_to fp sched →
  run sched s = Some s' →
  now (world s') ≤ t0 + profileTTL →
  inv N s'.
Proof.
  revert s. induction sched as [|a sched IH]; intros s Hinv Hquiet Hrun Hdeadline;
    simpl in Hrun.
  - by injection Hrun as <-.
  - destruct (step a s) as [s1|] eqn:Hstep; [|done].
    pose proof (run_clock driver_PProf _ _ _ Hrun) as Hlater.
    pose proof (step_clock driver_PProf _ _ _ Hstep) as Hnext.
    apply (IH s1); [|by intros Hk; apply Hquiet; right|done..].
    apply (inv_step N a s); [done| |lia|done].
    intros ->. apply Hquiet. by left.
Qed.

(** When all callers are back, the driver has run once and all hold the
    entry that is in the cache. *)
Lemma inv_done (N : nat) (s : @System Handler) :
  (1 ≤ N)%nat →
  inv N s →
  work_left s = 0%nat →
  pprof_calls (world s) = (calls0 ++ [fp])%list ∧
  ∃ ph, all_returned (inr ph) s ∧
        profileMap (world s) !! fp = Some ph ∧
        args_Handlers ph = HTTPServer handlers.
Proof.
  intros HN Hinv Hdone.
  pose proof (inv_count _ _ _ _ _ _ _ Hinv) as Hlen.
  destruct (lookup_lt_is_Some_2 (goroutines s) 0%nat) as [[k p] Hg]; [lia|].
  destruct (work_left_0 s _ _ _ Hdone Hg) as [r ->].
  destruct (inv_pc _ _ _ _ _ _ _ Hinv _ _ _ Hg) as (ph & -> & Hentry).
  destruct (inv_entry _ _ _ _ _ _ _ Hinv _ Hentry) as [(_ & _ & Hargs) Hlog].
  split; [done|]. exists ph. split_and!; [|done|done].
  intros g' k' p' Hg'.
  destruct (work_left_0 s _ _ _ Hdone Hg') as [r' ->].
  destruct (inv_pc _ _ _ _ _ _ _ Hinv _ _ _ Hg') as (ph' & -> & Hentry').
  congruence.
Qed.

End single_flight_facts.

(** ** Callers of one key, interleaved, when the driver fails *)

Section failing_facts.

Context {Handler : Type}.
Variable driver_PProf : string → error + gmap string Handler.
Variable fp : string.
Variable err : error.
Variable calls0 : list string.
Hypothesis driver_fails : driver_PProf fp = inl err.

#[local] Abbreviation finv := (@failing_inv Handler fp err calls0).
#[local] Abbreviation step := (step driver_PProf).
#[local] Abbreviation run := (run driver_PProf).

Lemma failing_entering (c : cleanup_pc) (N : nat) (w : @World Handler) :
  profileMap w !! fp = None →
  is_Some (files w !! fp) →
  pprof_calls w = calls0 →
  finv N (entering c (replicate N fp) w).
Proof.
  intros Hcold Hfile Hcalls. rewrite <- Hcalls.
  assert (∀ g k p, ((λ k, (k, @pc_Stat Handler)) <$> replicate N fp) !! g = Some (k, p) →
            k = fp ∧ p = pc_Stat) as Hrep.
  { intros g k p. rewrite fmap_replicate.
    intros [[= <- <-] _]%lookup_replicate. done. }
  split; simpl; try done.
  - by rewrite length_fmap, length_replicate.
  - intros g k p Hg. by destruct (Hrep _ _ _ Hg).
  - unfold builds_done. simpl. rewrite fmap_replicate.
    replace (sum_list (map (λ g : string * pc, has_built g.2)
               (replicate N (fp, pc_Stat)))) with 0%nat;
      [by rewrite app_nil_r|].
    clear. induction N as [|n IH]; simpl; [done|]. by rewrite <- IH.
  - intros g k p Hg. by destruct (Hrep _ _ _ Hg) as [_ ->].
Qed.

Lemma failing_update (N : nat) (s : @System Handler) (g : nat) (p p' : pc)
    (w' : World) (mu' : bool) :
  finv N s →
  goroutines s !! g = Some (fp, p) →
  is_Some (files w' !! fp) →
  profileMap w' !! fp = None →
  failing_pc err p' →
  pprof_calls w' =
    (pprof_calls (world s) ++ replicate (has_built p' - has_built p) fp)%list →
  (has_built p ≤ has_built p')%nat →
  finv N {| world := w'; mu := mu'; goroutines := <[g := (fp, p')]> (goroutines s);
            cleanup := cleanup s |}.
Proof.
  intros Hinv Hg Hfile Hcold Hp' Hcalls Hmono. split; simpl; try done.
  - rewrite length_insert. apply (fail_count _ _ _ _ _ Hinv).
  - intros g' k q [(-> & [= <- <-] & _) | [? Hg']]%list_lookup_insert_Some; [done|].
    apply (fail_args _ _ _ _ _ Hinv _ _ _ Hg').
  - rewrite Hcalls, (fail_calls _ _ _ _ _ Hinv), <- app_assoc, <- replicate_add.
    do 2 f_equal. unfold builds_done. simpl.
    pose proof (sum_list_insert_eq (λ g : string * pc, has_built g.2)
                  (goroutines s) g (fp, p) (fp, p') Hg) as Hsum.
    simpl in Hsum. lia.
  - intros g' k q [(-> & [= <- <-] & _) | [? Hg']]%list_lookup_insert_Some; [done|].
    apply (fail_pc _ _ _ _ _ Hinv _ _ _ Hg').
Qed.

Lemma failing_env (N : nat) (s : @System Handler) (w' : World) (c' : cleanup_pc) :
  finv N s →
  is_Some (files w' !! fp) →
  profileMap w' !! fp = None →
  pprof_calls w' = pprof_calls (world s) →
  finv N {| world := w'; mu := mu s; goroutines := goroutines s; cleanup := c' |}.
Proof.
  intros Hinv Hfile Hcold Hcalls. destruct Hinv. split; simpl; try done.
  by rewrite Hcalls.
Qed.

Lemma failing_step (N : nat) (a : action) (s s' : @System Handler) :
  finv N s → step a s = Some s' → finv N s'.
Proof.
  intros Hinv Hstep.
  pose proof (fail_file _ _ _ _ _ Hinv) as Hfile.
  pose proof (fail_cold _ _ _ _ _ Hinv) as Hcold.
  destruct a as [g|d|k|k|]; simpl in Hstep.
  - destruct (goroutines s !! g) as [[k p]|] eqn:Hg; [|done].
    pose proof (fail_args _ _ _ _ _ Hinv _ _ _ Hg) as ->.
    pose proof (fail_pc _ _ _ _ _ Hinv _ _ _ Hg) as Hp.
    destruct p; simpl in Hstep, Hp; try done.
    + unfold os_Stat in Hstep. destruct Hfile as [info Hinfo].
      rewrite Hinfo in Hstep. injection Hstep as <-.
      apply (failing_update N s g pc_Stat); simpl; rewrite ?app_nil_r; eauto.
    + rewrite Hcold in Hstep. injection Hstep as <-.
      apply (failing_update N s g (pc_Load info)); simpl; rewrite ?app_nil_r; eauto.
    + destruct (mu s); [done|]. injection Hstep as <-.
      apply (failing_update N s g pc_Lock); simpl; rewrite ?app_nil_r; eauto.
    + rewrite Hcold in Hstep. injection Hstep as <-.
      apply (failing_update N s g pc_Recheck); simpl; rewrite ?app_nil_r; eauto.
    + unfold run_PProf in Hstep. rewrite driver_fails in Hstep.
      injection Hstep as <-.
      apply (failing_update N s g pc_PProf); simpl; eauto.
    + injection Hstep as <-.
      apply (failing_update N s g (pc_Unlock r)); simpl; rewrite ?app_nil_r; eauto.
  - destruct (0 <=? d); [|done]. injection Hstep as <-. by apply failing_env.
  - injection Hstep as <-. apply failing_env; simpl; try done.
    destruct (decide (k = fp)) as [->|Hne].
    + rewrite lookup_insert_eq. eauto.
    + by rewrite lookup_insert_ne.
  - destruct (Range_visit k (cleanup s) (world s)); [|done].
    injection Hstep as <-. by apply failing_env.
  - destruct (cleanup s) as [|key ph|key]; simpl in Hstep; [done| |].
    + destruct (profileTTL <? _); injection Hstep as <-; by apply failing_env.
    + injection Hstep as <-. apply failing_env; simpl; try done.
      destruct (decide (key = fp)) as [->|Hne].
      * apply lookup_delete_eq.
      * by rewrite lookup_delete_ne.
Qed.

Lemma failing_run (N : nat) (sched : list action) (s s' : @System Handler) :
  finv N s → run sched s = Some s' → finv N s'.
Proof.
  revert s. induction sched as [|a sched IH]; intros s Hinv Hrun; simpl in Hrun.
  - by injection Hrun as <-.
  - destruct (step a s) as [s1|] eqn:Hstep; [|done].
    apply (IH s1); [|done]. by apply (failing_step N a s).
Qed.

(** When all callers are back, each of them has run the driver and holds
    its error. *)
Lemma failing_done (N : nat) (s : @System Handler) :
  finv N s →
  work_left s = 0%nat →
  pprof_calls (world s) = (calls0 ++ replicate N fp)%list ∧
  all_returned (inl err) s ∧
  profileMap (world s) !! fp = None.
Proof.
  intros Hinv Hdone. split_and!.
  - rewrite (fail_calls _ _ _ _ _ Hinv), (builds_done_all s Hdone).
    by rewrite (fail_count _ _ _ _ _ Hinv).
  - intros g k p Hg. destruct (work_left_0 s _ _ _ Hdone Hg) as [r ->].
    pose proof (fail_pc _ _ _ _ _ Hinv _ _ _ Hg) as Hr. simpl in Hr. by subst r.
  - apply (fail_cold _ _ _ _ _ Hinv).
Qed.

End failing_facts.

(** C1, as the code has it: [N] callers enter [getHandler(fp)] at once on
    a cache without entry for [fp]; the file is there, its modification
    time is not ahead of the clock, and the goroutine of [cleanupProfiles]
    is not at an entry of [fp]. However the callers interleave with each
    other, with [cleanupProfiles], with the clock and with writes of
    files: they run at most [8 * N] statements, some caller can always go
    on while one is inside, and all of them can return. Once they have
    returned, if the driver succeeds on [fp], the file [fp] has not been
    written meanwhile and the clock is within [profileTTL] of the
    callers' entry, then the driver has run exactly once and all [N]
    callers hold the same handler, the one in the cache, built from the
    driver's handlers; if the driver fails on [fp], then all [N] callers
    hold its error, the driver has run [N] times, once for each caller,
    and nothing is stored. *)
Theorem simultaneous_callers_agree {Handler : Type}
    (driver_PProf : string → error + gmap string Handler)
    (c : cleanup_pc) (N : nat) (fp : string) (info : FileInfo)
    (w : @World Handler) (sched : list action) (s' : @System Handler) :
  (1 ≤ N)%nat →
  profileMap w !! fp = None →
  files w !! fp = Some info →
  ModTime info ≤ now w →
  cleanup_key c ≠ Some fp →
  run driver_PProf sched (entering c (replicate N fp) w) = Some s' →
  (statements_run sched + work_left s' ≤ 8 * N)%nat ∧
  (work_left s' ≠ 0%nat → ∃ g s'', step driver_PProf (Run g) s' = Some s'') ∧
  (∃ rest s'', run driver_PProf rest s' = Some s'' ∧ work_left s'' = 0%nat) ∧
  (work_left s' = 0%nat →
   length (goroutines s') = N ∧
   match driver_PProf fp with
   | inr handlers =>
       no_writes_to fp sched →
       now (world s') ≤ now w + profileTTL →
       pprof_calls (world s') = (pprof_calls w ++ [fp])%list ∧
       ∃ ph, all_returned (inr ph) s' ∧
             profileMap (world s') !! fp = Some ph ∧
             args_Handlers ph = HTTPServer handlers
   | inl err =>
       pprof_calls (world s') = (pprof_calls w ++ replicate N fp)%list ∧
       all_returned (inl err) s' ∧
       profileMap (world s') !! fp = None
   end).
Proof.
  intros HN Hcold Hfile Hclock Hc Hrun.
  assert (lock_inv s') as Hlock.
  { apply (lock_inv_run driver_PProf sched (entering c (replicate N fp) w));
      [apply lock_inv_entering | done]. }
  split_and!.
  - pose proof (run_bounded driver_PProf _ _ _ Hrun) as Hbound.
    rewrite work_left_entering, length_replicate in Hbound. done.
  - by apply lock_progress.
  - destruct (run_completes driver_PProf s' Hlock) as (rest & s'' & ? & ? & _).
    eauto.
  - intros Hdone. split.
    { rewrite (run_length driver_PProf _ _ _ Hrun). simpl.
      by rewrite length_fmap, length_replicate. }
    destruct (driver_PProf fp) as [err|handlers] eqn:Hdriver.
    + apply (failing_done fp err (pprof_calls w) N s'); [|done].
      apply (failing_run driver_PProf fp err (pprof_calls w) Hdriver N sched
               (entering c (replicate N fp) w)); [|done].
      apply (failing_entering driver_PProf fp err (pprof_calls w) Hdriver);
        [done | by rewrite Hfile | done].
    + intros Hquiet Hdeadline.
      apply (inv_done fp info handlers (pprof_calls w) (now w) N s'); [done| |done].
      apply (inv_run driver_PProf fp info handlers (pprof_calls w) (now w) Hdriver
               N sched (entering c (replicate N fp) w)); [|done..].
      by apply (inv_entering driver_PProf fp info handlers (pprof_calls w) (now w)
                  Hdriver).
Qed.

Lemma marker_is_substring_cut_witness :
  strings.occurs_at "/ui" 0 "/uint.prof" ∧
  Example.route "/uint.prof" Example.cold =
    through_cache Example.driver_PProf filepath.Join "." EmptyString "nt.prof"
      Example.cold.
Proof.
  assert (strings.occurs_at "/ui" 0 "/uint.prof") as Hocc
    by (by exists EmptyString, "nt.prof").
  split; [exact Hocc|].
  exact (proj2 (proj2 (marker_is_substring_cut Example.driver_PProf filepath.Join
    "." "/uint.prof" 0 Example.cold Hocc))).
Defined.

Lemma plain_file_builds_then_redirects_witness :
  ∃ w',
    Example.route "/cpu.prof" Example.cold =
      ([Redirect StatusFound "/cpu.prof/ui/"; fileServer_ServeHTTP], w') ∧
    pprof_calls w' = ["cpu.prof"] ∧
    profileMap w' !! "cpu.prof" =
      Some {| ptr := 0;
              args_Handlers :=
                HTTPServer (<["/" := "index"]> (<["/graph" := "graph"]> ∅));
              time := 100 |}.
Proof.
  destruct (plain_file_builds_then_redirects Example.driver_PProf filepath.Join
              "." "/cpu.prof" {| ModTime := 50; IsDir := false |} Example.cold
              (Index_None "/cpu.prof" "/ui" eq_refl) eq_refl eq_refl)
    as [_ Hbuild].
  destruct Hbuild as (w' & Hcalls & _ & _ & _ & Hres).
  { intros ph Hph. vm_compute in Hph. discriminate Hph. }
  assert (Example.driver_PProf (filepath.Join "." "/cpu.prof") =
            inr (<["/" := "index"]> (<["/graph" := "graph"]> ∅))) as Hdriver
    by reflexivity.
  rewrite Hdriver in Hres. destruct Hres as [Hroute Hentry].
  exists w'. split_and!; [exact Hroute | exact Hcalls | exact Hentry].
Defined.

Lemma file_server_runs_after_redirect_witness :
  ∃ w', Example.route "/cpu.prof" Example.cold =
          ([Redirect StatusFound "/cpu.prof/ui/"; fileServer_ServeHTTP], w').
Proof.
  destruct (getHandler Example.driver_PProf (filepath.Join "." "/cpu.prof")
              Example.cold) as [[err|ph] w'] eqn:Hget.
  - vm_compute in Hget. discriminate Hget.
  - exists w'.
    apply (proj2 (file_server_runs_after_redirect Example.driver_PProf
                    filepath.Join "." "/cpu.prof"
                    {| ModTime := 50; IsDir := false |} Example.cold
                    (Index_None "/cpu.prof" "/ui" eq_refl) eq_refl)
                 eq_refl ph w' Hget).
Defined.

Lemma subroute_lookup_is_exact_witness :
  Example.route "/cpu.prof/ui/" Example.cold =
    Example.route "/cpu.prof/ui" Example.cold.
Proof.
  apply (subroute_lookup_is_exact Example.driver_PProf filepath.Join "."
           "/cpu.prof/ui" "/cpu.prof/ui/" "/cpu.prof" EmptyString "/" Example.cold).
  - reflexivity.
  - reflexivity.
  - right. split; reflexivity.
Defined.

(** C8, as the specification has it, fails: [/graph] and [/graph/] differ
    by a slash at the end only, the first is served by the graph view and
    the second finds no handler. *)
Lemma trailing_slash_misses :
  spec_normalize_after "/graph/" = spec_normalize_after "/graph" ∧
  (Example.route "/cpu.prof/ui/graph" Example.cold).1 =
    [ServeHTTP (NavHandler "/graph" "graph")] ∧
  (Example.route "/cpu.prof/ui/graph/" Example.cold).1 = [] ∧
  (Example.route "/cpu.prof/ui/graph/" Example.cold).1 ≠
    (Example.route "/cpu.prof/ui/graph" Example.cold).1 ∧
  spec_normalize_after "//graph" = spec_normalize_after "/graph" ∧
  (Example.route "/cpu.prof/ui//graph" Example.cold).1 = [].
Proof. split_and!; vm_compute; (reflexivity || discriminate). Qed.

Lemma entry_is_reused_by_build_time_witness :
  ∃ r w',
    getHandler Example.driver_PProf "cpu.prof" (Example.with_old_entry "cpu.prof")
      = (r, w') ∧
    pprof_calls w' = ["cpu.prof"] ∧
    profileMap w' !! "cpu.prof" ≠ Some (Example.entry 10).
Proof.
  destruct (entry_is_reused_by_build_time Example.driver_PProf "cpu.prof"
              {| ModTime := 50; IsDir := false |} (Example.entry 10)
              (Example.with_old_entry "cpu.prof") eq_refl)
    as [Halone _].
  destruct (Halone eq_refl) as [_ Hstale].
  destruct (Hstale ltac:(simpl; lia)) as (r & w' & Hget & Hcalls & Hgone & _).
  exists r, w'. split_and!; [done | done | apply Hgone; simpl; lia].
Defined.

(** C2, as the specification has it, fails: the entry was built at time
    100, when the file's modification time was 50; the file is replaced
    by one whose modification time is 60; the next call returns the old
    entry and does not run the driver. *)
Lemma changed_mtime_entry_is_reused :
  ∃ ph,
    files Example.cold !! "cpu.prof" = Some {| ModTime := 50; IsDir := false |} ∧
    getHandler Example.driver_PProf "cpu.prof" Example.cold
      = (inr ph, Example.built) ∧
    time ph = 100 ∧
    files Example.replaced !! "cpu.prof" = Some {| ModTime := 60; IsDir := false |} ∧
    ¬ spec_still_valid {| ModTime := 50; IsDir := false |}
                       {| ModTime := 60; IsDir := false |} ∧
    getHandler Example.driver_PProf "cpu.prof" Example.replaced
      = (inr ph, Example.replaced) ∧
    pprof_calls Example.replaced = ["cpu.prof"].
Proof.
  eexists. split_and!; try (vm_compute; reflexivity).
  unfold spec_still_valid. simpl. lia.
Qed.

Lemma failed_build_stores_nothing_witness :
  ∃ w',
    getHandler Example.driver_PProf "bad.prof" Example.cold
      = (inl (DriverError "unrecognized profile format"), w') ∧
    profileMap w' !! "bad.prof" = None.
Proof.
  destruct (failed_build_stores_nothing Example.driver_PProf "bad.prof"
              {| ModTime := 50; IsDir := false |}
              (DriverError "unrecognized profile format") Example.cold)
    as (w' & Hget & _ & _ & Hnone & _).
  - reflexivity.
  - intros ph Hph. vm_compute in Hph. discriminate Hph.
  - reflexivity.
  - exists w'. split; [exact Hget | exact Hnone].
Defined.

(** C5, as the specification has it, fails: with an entry for the key
    that is older than the file, the failed call changes the cache table,
    the entry is gone after it. *)
Lemma failed_build_drops_stale_entry :
  let w := Example.with_old_entry "bad.prof" in
  let '(r, w') := getHandler Example.driver_PProf "bad.prof" w in
  r = inl (DriverError "unrecognized profile format") ∧
  pprof_calls w' = ["bad.prof"] ∧
  profileMap w !! "bad.prof" = Some (Example.entry 10) ∧
  profileMap w' !! "bad.prof" = None ∧
  profileMap w' ≠ profileMap w.
Proof.
  vm_compute. split_and!; try reflexivity.
  intros Heq. discriminate Heq.
Qed.

(** ** Callers of one key: closed runs *)

Lemma simultaneous_callers_agree_witness :
  (∃ s', run Example.driver_PProf Example.beside_cleanup
           (callers 3 "cpu.prof" Example.cold) = Some s' ∧
         pprof_calls (world s') = ["cpu.prof"] ∧
         ∃ ph, all_returned (inr ph) s') ∧
  (∃ s', run Example.driver_PProf Example.both_miss
           (callers 2 "bad.prof" Example.cold) = Some s' ∧
         pprof_calls (world s') = ["bad.prof"; "bad.prof"] ∧
         all_returned (inl (DriverError "unrecognized profile format")) s').
Proof.
  split.
  - assert (match run Example.driver_PProf Example.beside_cleanup
                    (callers 3 "cpu.prof" Example.cold) with
            | Some s' => work_left s' = 0%nat ∧ now (world s') ≤ 100 + profileTTL
            | None => False
            end) as Hend by (vm_compute; split; [reflexivity | discriminate]).
    destruct (run Example.driver_PProf Example.beside_cleanup
                (callers 3 "cpu.prof" Example.cold)) as [s'|] eqn:Hrun; [|exact (False_ind _ Hend)].
    destruct Hend as [Hdone Hdeadline].
    exists s'. split; [reflexivity|].
    destruct (simultaneous_callers_agree Example.driver_PProf cl_Range 3
                "cpu.prof" {| ModTime := 50; IsDir := false |} Example.cold
                Example.beside_cleanup s')
      as (_ & _ & _ & Hsame).
    + lia.
    + vm_compute. reflexivity.
    + vm_compute. reflexivity.
    + vm_compute. discriminate.
    + discriminate.
    + exact Hrun.
    + destruct (Hsame Hdone) as [_ Hbuilt]. hnf in Hbuilt.
      destruct Hbuilt as (Hcalls & ph & Hret & _).
      * intros Hin. unfold Example.beside_cleanup in Hin.
        repeat (apply elem_of_cons in Hin as [Hin|Hin]; [discriminate|]).
        by apply elem_of_nil in Hin.
      * exact Hdeadline.
      * split; [exact Hcalls|]. exists ph. exact Hret.
  - assert (match run Example.driver_PProf Example.both_miss
                    (callers 2 "bad.prof" Example.cold) with
            | Some s' => work_left s' = 0%nat
            | None => False
            end) as Hdone by (vm_compute; reflexivity).
    destruct (run Example.driver_PProf Example.both_miss
                (callers 2 "bad.prof" Example.cold)) as [s'|] eqn:Hrun; [|exact (False_ind _ Hdone)].
    exists s'. split; [reflexivity|].
    destruct (simultaneous_callers_agree Example.driver_PProf cl_Range 2
                "bad.prof" {| ModTime := 50; IsDir := false |} Example.cold
                Example.both_miss s')
      as (_ & _ & _ & Hsame).
    + lia.
    + vm_compute. reflexivity.
    + vm_compute. reflexivity.
    + vm_compute. discriminate.
    + discriminate.
    + exact Hrun.
    + destruct (Hsame Hdone) as [_ Hfailed]. hnf in Hfailed.
      destruct Hfailed as (Hcalls & Hret & _).
      split; [exact Hcalls | exact Hret].
Defined.

(** C1, as the specification has it, fails when the driver fails: both
    callers miss, and each of them runs the driver under the lock, since
    the first one has stored nothing. *)
Lemma failing_driver_runs_for_every_caller :
  ¬ spec_single_flight Example.driver_PProf 2 "bad.prof" Example.cold.
Proof.
  intros Hspec.
  edestruct (Hspec Example.both_miss) as [Hcalls _].
  - intros fp Hin. unfold Example.both_miss in Hin.
    repeat (apply elem_of_cons in Hin as [Hin|Hin]; [discriminate|]).
    by apply elem_of_nil in Hin.
  - vm_compute. reflexivity.
  - vm_compute. reflexivity.
  - vm_compute in Hcalls. discriminate Hcalls.
Qed.

(** It fails as well when the file's modification time is ahead of the
    clock: the second caller takes the first one's entry for stale. *)
Lemma future_mtime_builds_twice :
  ¬ spec_single_flight Example.driver_PProf 2 "cpu.prof" Example.early.
Proof.
  intros Hspec.
  edestruct (Hspec Example.second_after_first) as [Hcalls _].
  - intros fp Hin. unfold Example.second_after_first in Hin. simpl in Hin.
    repeat (apply elem_of_cons in Hin as [Hin|Hin]; [discriminate|]).
    by apply elem_of_nil in Hin.
  - vm_compute. reflexivity.
  - vm_compute. reflexivity.
  - vm_compute in Hcalls. discriminate Hcalls.
Qed.

(** It fails as well when the callers are far apart in time: the goroutine
    of [cleanupProfiles] deletes the first caller's entry, 31 minutes old,
    before the second caller looks, and the second caller builds again. *)
Lemma eviction_between_callers_builds_twice :
  ¬ spec_single_flight Example.driver_PProf 2 "cpu.prof" Example.cold.
Proof.
  intros Hspec.
  edestruct (Hspec Example.swept_in_between) as [Hcalls _].
  - intros fp Hin. unfold Example.swept_in_between in Hin. simpl in Hin.
    repeat (apply elem_of_cons in Hin as [Hin|Hin]; [discriminate|]).
    by apply elem_of_nil in Hin.
  - vm_compute. reflexivity.
  - vm_compute. reflexivity.
  - vm_compute in Hcalls. discriminate Hcalls.
Qed.

(** What the other conditions of C1 are for: the driver runs twice when
    the file is written between the callers, and when [cleanupProfiles]
    was about to delete an entry of the key as the callers entered. *)
Lemma written_or_deleted_entry_is_built_twice :
  (∃ s', run Example.driver_PProf Example.written_in_between
           (callers 2 "cpu.prof" Example.cold) = Some s' ∧
         work_left s' = 0%nat ∧
         pprof_calls (world s') = ["cpu.prof"; "cpu.prof"]) ∧
  (∃ s', run Example.driver_PProf Example.deleted_in_between
           (entering (cl_Delete "cpu.prof") ["cpu.prof"; "cpu.prof"] Example.cold)
           = Some s' ∧
         work_left s' = 0%nat ∧
         pprof_calls (world s') = ["cpu.prof"; "cpu.prof"]).
Proof. split; eexists; split_and!; vm_compute; reflexivity. Qed.

(** C4: the second look at the map, under the lock, returns whatever entry
    it finds. Here the second caller has seen, by its own [os.Stat], the
    modification time 110; the entry it is handed under the lock was built
    at time 100, before the file was written. *)
Theorem recheck_returns_stale_entry :
  ∃ s1 s' ph,
    run Example.driver_PProf Example.write_during_build
      (callers 2 "cpu.prof" Example.cold) = Some s1 ∧
    goroutines s1 !! 1%nat =
      Some ("cpu.prof", pc_Load {| ModTime := 110; IsDir := false |}) ∧
    goroutines s1 !! 0%nat = Some ("cpu.prof", pc_Store ph) ∧
    run Example.driver_PProf Example.then_recheck s1 = Some s' ∧
    goroutines s' !! 1%nat = Some ("cpu.prof", pc_Return (inr ph)) ∧
    time ph = 100 ∧
    time.After 110 (time ph) = true ∧
    pprof_calls (world s') = ["cpu.prof"].
Proof.
  do 3 eexists. split; [vm_compute; reflexivity|].
  split_and!; vm_compute; reflexivity.
Qed.

(** * More of the package *)

(** ** The directory listing's helpers *)

Section dirlist_facts.
Import strings dirlist.

Lemma get_lt (s : string) (j : nat) (c : Ascii.ascii) :
  String.get j s = Some c → (j < String.length s)%nat.
Proof.
  revert j. induction s as [|d s IH]; intros [|j]; simpl; try done; try lia.
  intros Hj. specialize (IH j Hj). lia.
Qed.

Lemma get_app_l (a b : string) (j : nat) :
  (j < String.length a)%nat → String.get j (a ++ b) = String.get j a.
Proof.
  revert j. induction a as [|d a IH]; intros [|j]; simpl; try lia; try done.
  intros Hj. apply IH. lia.
Qed.

Lemma get_app_r (a b : string) (j : nat) :
  String.get (String.length a + j) (a ++ b) = String.get j b.
Proof. induction a as [|d a IH]; simpl; done. Qed.

Lemma get_slice_from (m j : nat) (s : string) :
  String.get j (slice_from m s) = String.get (m + j) s.
Proof.
  revert s. induction m as [|m IH]; intros s; [by destruct s|].
  destruct s as [|d s]; simpl; [by destruct j|]. apply IH.
Qed.

Lemma slice_to_from (k : nat) (s : string) : slice_to k s ++ slice_from k s = s.
Proof.
  revert s. induction k as [|k IH]; intros [|d s]; simpl; try done.
  by rewrite IH.
Qed.

Lemma slice_from_app_ge (a b : string) (k : nat) :
  slice_from (String.length a + k) (a ++ b) = slice_from k b.
Proof. induction a as [|d a IH]; simpl; done. Qed.

(** What the loop of [toBaseName] finds. *)
Lemma last_separator_spec (s : string) (count : nat) :
  match last_separator s count with
  | None =>
      ∀ j c, (j < count)%nat → String.get j s = Some c → is_separator c = false
  | Some i =>
      (i < count)%nat ∧
      (∃ c, String.get i s = Some c ∧ is_separator c = true) ∧
      ∀ j c, (i < j < count)%nat → String.get j s = Some c →
             is_separator c = false
  end.
Proof.
  induction count as [|count IH]; simpl; [intros; lia|].
  destruct (String.get count s) as [d|] eqn:Hget.
  - destruct (is_separator d) eqn:Hsep.
    + split_and!; [lia | eauto | intros; lia].
    + destruct (last_separator s count) as [i|].
      * destruct IH as (Hi & Hc & Hafter). split_and!; [lia | done |].
        intros j c Hj Hjc. destruct (decide (j = count)) as [->|Hne].
        -- congruence.
        -- apply (Hafter j c); [lia | done].
      * intros j c Hj Hjc. destruct (decide (j = count)) as [->|Hne].
        -- congruence.
        -- apply (IH j c); [lia | done].
  - destruct (last_separator s count) as [i|].
    + destruct IH as (Hi & Hc & Hafter). split_and!; [lia | done |].
      intros j c Hj Hjc. destruct (decide (j = count)) as [->|Hne].
      * congruence.
      * apply (Hafter j c); [lia | done].
    + intros j c Hj Hjc. destruct (decide (j = count)) as [->|Hne].
      * congruence.
      * apply (IH j c); [lia | done].
Qed.

Lemma toBaseName_eq (s : string) :
  toBaseName s =
    match last_separator s (String.length s) with
    | None => s
    | Some i =>
        if Nat.eqb i (String.length s - 1)
        then toBaseName (slice_to (String.length s - 1) s)
        else slice_from (S i) s
    end.
Proof.
  funelim (toBaseName s);
    match goal with H : last_separator _ _ = _ |- _ => rewrite H end;
    try match goal with H : Nat.eqb _ _ = _ |- _ => rewrite H end;
    reflexivity.
Qed.

Lemma toBaseName_plain (s : string) : no_separator s → toBaseName s = s.
Proof.
  intros Hplain. rewrite toBaseName_eq.
  pose proof (last_separator_spec s (String.length s)) as Hspec.
  destruct (last_separator s (String.length s)) as [i|]; [|done].
  destruct Hspec as (_ & (c & Hc & Hsep) & _).
  rewrite (Hplain i c Hc) in Hsep. discriminate.
Qed.

End dirlist_facts.
